(** * Process orchestration and analysis assembly of the code reviewer

    A shallow embedding of [src/index.ts]: the process runners
    ([spawnGemini], [spawnEslint]), the argument transport strategy
    ([isArgumentTooLongError], [runGeminiPrompt]), the analyzer selector
    ([runProjectLinter] with its two output parsers), the change-set collector
    and the orchestrator ([runHybridAnalysis] and the [review-local-changes]
    tool handler).

    A string is the UTF-8 encoding of the JavaScript string: what a child
    process wrote, what git printed. White space and line terminators are
    the ones of the language, each in its encoding; the regular expressions
    work on bytes, which agrees with the language on such text because the
    literals of the patterns are ASCII. [toLowerCase] maps the ASCII
    letters, which is enough for the one use the program makes of it: no
    other character turns into letters of the phrase that is looked for.
    A number is a double with a whole value. *)

From Stdlib Require Import String Ascii List ZArith Bool Lia.
Import ListNotations.
Open Scope string_scope.
Set Warnings "-register-all".

(* ================================================================== *)
(** ** JavaScript strings *)

Definition LF : ascii := "010"%char.
Definition CR : ascii := "013"%char.
Definition DQUOTE : ascii := ascii_of_nat 34.

Definition is_digit (c : ascii) : bool :=
  (48 <=? nat_of_ascii c)%nat && (nat_of_ascii c <=? 57)%nat.

Definition bytes (codes : list nat) : string :=
  fold_right (fun n s => String (ascii_of_nat n) s) EmptyString codes.

(** The line terminators of the language: LF, CR, U+2028 and U+2029. *)
Definition line_terminators : list string :=
  [bytes [10]; bytes [13]; bytes [226; 128; 168]; bytes [226; 128; 169]].

(** White space and line terminators, as [\s], [trim] and [parseInt] see
    them: TAB, LF, VT, FF, CR, SP, U+00A0, U+1680, U+2000 to U+200A,
    U+2028, U+2029, U+202F, U+205F, U+3000 and U+FEFF. *)
Definition white_space : list string :=
  [bytes [9]; bytes [10]; bytes [11]; bytes [12]; bytes [13]; bytes [32];
   bytes [194; 160];
   bytes [225; 154; 128];
   bytes [226; 128; 128]; bytes [226; 128; 129]; bytes [226; 128; 130];
   bytes [226; 128; 131]; bytes [226; 128; 132]; bytes [226; 128; 133];
   bytes [226; 128; 134]; bytes [226; 128; 135]; bytes [226; 128; 136];
   bytes [226; 128; 137]; bytes [226; 128; 138];
   bytes [226; 128; 168]; bytes [226; 128; 169];
   bytes [226; 128; 175];
   bytes [226; 129; 159];
   bytes [227; 128; 128];
   bytes [239; 187; 191]].

Definition not_lparen (c : ascii) : bool := negb (Ascii.eqb c "("%char).

Fixpoint startsWith (p s : string) : bool :=
  match p, s with
  | EmptyString, _ => true
  | String a p', String b s' => Ascii.eqb a b && startsWith p' s'
  | String _ _, EmptyString => false
  end.

Fixpoint endsWith (suffix s : string) : bool :=
  String.eqb s suffix ||
  match s with
  | EmptyString => false
  | String _ s' => endsWith suffix s'
  end.

Fixpoint includes (needle s : string) : bool :=
  startsWith needle s ||
  match s with
  | EmptyString => false
  | String _ s' => includes needle s'
  end.

Definition lower_char (c : ascii) : ascii :=
  let n := nat_of_ascii c in
  if (65 <=? n)%nat && (n <=? 90)%nat then ascii_of_nat (n + 32) else c.

Fixpoint toLowerCase (s : string) : string :=
  match s with
  | EmptyString => EmptyString
  | String c s' => String (lower_char c) (toLowerCase s')
  end.

(** [s.split(sep)] for a one-character separator. *)
Fixpoint split (sep : ascii) (s : string) : list string :=
  match s with
  | EmptyString => [EmptyString]
  | String c s' =>
      if Ascii.eqb c sep then EmptyString :: split sep s'
      else match split sep s' with
           | h :: t => String c h :: t
           | [] => [String c EmptyString]
           end
  end.

Fixpoint take (n : nat) (s : string) : string :=
  match n, s with
  | S n', String c s' => String c (take n' s')
  | _, _ => EmptyString
  end.

Fixpoint drop (n : nat) (s : string) : string :=
  match n, s with
  | S n', String _ s' => drop n' s'
  | _, _ => s
  end.

(** The length of the first entry of a table that the string starts with,
    0 when it starts with none; the same for the end of the string. *)
Fixpoint first_match (table : list string) (s : string) : nat :=
  match table with
  | [] => 0
  | e :: rest =>
      if startsWith e s then String.length e else first_match rest s
  end.

Fixpoint last_match (table : list string) (s : string) : nat :=
  match table with
  | [] => 0
  | e :: rest =>
      if endsWith e s then String.length e else last_match rest s
  end.

(** Character classes: the number of bytes of the character the string
    starts with when the class has it, 0 otherwise. *)
Definition space_char (s : string) : nat := first_match white_space s.

(** [.]: one unit of anything but a line terminator. *)
Definition dot_char (s : string) : nat :=
  match s with
  | EmptyString => 0
  | String _ _ => if Nat.eqb (first_match line_terminators s) 0 then 1 else 0
  end.

Definition byte_class (p : ascii -> bool) (s : string) : nat :=
  match s with
  | EmptyString => 0
  | String c _ => if p c then 1 else 0
  end.

(** [trimStart] and [trimEnd] take white space characters off one at a
    time; there are at most as many as the string has bytes. *)
Fixpoint strip_start (fuel : nat) (s : string) : string :=
  match fuel with
  | O => s
  | S fuel' =>
      match space_char s with
      | O => s
      | k => strip_start fuel' (drop k s)
      end
  end.

Fixpoint strip_end (fuel : nat) (s : string) : string :=
  match fuel with
  | O => s
  | S fuel' =>
      match last_match white_space s with
      | O => s
      | k => strip_end fuel' (take (String.length s - k) s)
      end
  end.

Definition trimStart (s : string) : string := strip_start (String.length s) s.

Definition trimEnd (s : string) : string := strip_end (String.length s) s.

Definition trim (s : string) : string := trimEnd (trimStart s).

(** Truthiness of a string and the [a || b] idiom on a possibly undefined
    string. *)
Definition truthy (s : string) : bool := negb (String.eqb s EmptyString).

Definition or_default (o : option string) (d : string) : string :=
  match o with
  | Some s => if truthy s then s else d
  | None => d
  end.

(** *** Numbers

    The numbers of the program are whole: exit statuses, delays, the line
    and the column of a finding. A number of the language is an IEEE 754
    double, so a whole number beyond 2^53 is the double nearest to it. *)

Inductive number : Type :=
| NaN
| Finite (z : Z)
| Infinity (negative : bool).

Definition digit_char (d : nat) : ascii := ascii_of_nat (48 + d).

Fixpoint digits_of (fuel : nat) (n : N) (acc : string) : string :=
  match fuel with
  | O => acc
  | S fuel' =>
      let acc' := String (digit_char (N.to_nat (n mod 10))) acc in
      if (n <? 10)%N then acc' else digits_of fuel' (n / 10)%N acc'
  end.

Definition N_to_string (n : N) : string :=
  digits_of (S (N.to_nat (N.log2 n))) n EmptyString.

(** The double nearest to a natural number, ties to the even significand
    of 53 bits; [None] beyond the largest double. *)
Definition nearest_double (n : N) : option N :=
  if (n <? 2 ^ 53)%N then Some n
  else
    let e := (N.log2 n - 52)%N in
    let q := N.shiftr n e in
    let rest := (n - N.shiftl q e)%N in
    let half := N.shiftl 1 (e - 1) in
    let q' :=
      if (half <? rest)%N || ((rest =? half)%N && N.odd q)
      then (q + 1)%N else q in
    let v := N.shiftl q' e in
    if (v <? 2 ^ 1024)%N then Some v else None.

Definition rounds_to (x v : N) : bool :=
  match nearest_double v with
  | Some d => (d =? x)%N
  | None => false
  end.

(** The digits [s], [k] of them, and the exponent [n] of
    [Number::toString]: [s * 10^(n-k)] is a decimal that reads back as the
    number, with the fewest digits, and the nearest one among those. Here:
    the candidates with [k] digits for a number of [D] digits. *)
Definition with_digits (x : N) (D k : nat) : option (N * nat) :=
  let p := (10 ^ N.of_nat (D - k))%N in
  let lo := (x / p)%N in
  let hi := (lo + 1)%N in
  let pick :=
    match rounds_to x (lo * p), rounds_to x (hi * p) with
    | true, true =>
        let below := (x - lo * p)%N in
        let above := (hi * p - x)%N in
        if (below <? above)%N then Some lo
        else if (above <? below)%N then Some hi
        else Some (if N.even lo then lo else hi)
    | true, false => Some lo
    | false, true => Some hi
    | false, false => None
    end in
  match pick with
  | Some s =>
      if (s =? 10 ^ N.of_nat k)%N
      then Some (10 ^ N.of_nat (k - 1), S D)%N
      else Some (s, D)
  | None => None
  end.

Fixpoint shortest_digits (fuel k : nat) (x : N) (D : nat) : N * nat * nat :=
  match fuel with
  | O => (x, D, D)
  | S fuel' =>
      match with_digits x D k with
      | Some (s, n) => (s, k, n)
      | None => shortest_digits fuel' (S k) x D
      end
  end.

Fixpoint zeros (n : nat) : string :=
  match n with
  | O => EmptyString
  | S n' => String "0"%char (zeros n')
  end.

(** [Number::toString] of a double that is a positive whole number: the
    digits followed by zeros up to 21 digits, the exponent form beyond. *)
Definition double_to_string (x : N) : string :=
  let D := String.length (N_to_string x) in
  let '(s, k, n) := shortest_digits D 1 x D in
  let ds := N_to_string s in
  if (n <=? 21)%nat then ds ++ zeros (n - k)
  else
    match ds with
    | String d EmptyString => String d ("e+" ++ N_to_string (N.of_nat (n - 1)))
    | String d more =>
        String d ("." ++ more ++ "e+" ++ N_to_string (N.of_nat (n - 1)))
    | EmptyString => EmptyString
    end.

(** The text of the number with a whole value, as a template literal and
    [JSON.stringify] write it; ["Infinity"] beyond the largest double. *)
Definition N_text (n : N) : string :=
  match nearest_double n with
  | Some 0%N => "0"
  | Some x => double_to_string x
  | None => "Infinity"
  end.

Definition Z_to_string (z : Z) : string :=
  match z with
  | Zneg p => String "-"%char (N_text (Npos p))
  | _ => N_text (Z.to_N z)
  end.

Definition digit_value (radix : N) (c : ascii) : option N :=
  let n := N_of_ascii c in
  let v :=
    if ((48 <=? n) && (n <=? 57))%N then Some (n - 48)%N
    else if ((97 <=? n) && (n <=? 122))%N then Some (n - 87)%N
    else if ((65 <=? n) && (n <=? 90))%N then Some (n - 55)%N
    else None in
  match v with
  | Some d => if (d <? radix)%N then Some d else None
  | None => None
  end.

(** Longest prefix of digits in the radix, read as a number; [None] when
    the prefix is empty. *)
Fixpoint read_digits (radix : N) (s : string) (acc : option N) : option N :=
  match s with
  | EmptyString => acc
  | String c s' =>
      match digit_value radix c with
      | Some d =>
          read_digits radix s'
            (Some (match acc with Some a => a * radix + d | None => d end)%N)
      | None => acc
      end
  end.

(** [parseInt(s)] without a radix argument. *)
Definition parseInt (s : string) : number :=
  let s1 := trimStart s in
  let '(neg, s2) :=
    match s1 with
    | String "-"%char r => (true, r)
    | String "+"%char r => (false, r)
    | _ => (false, s1)
    end in
  let '(radix, s3) :=
    match s2 with
    | String "0"%char (String "x"%char r) => (16%N, r)
    | String "0"%char (String "X"%char r) => (16%N, r)
    | _ => (10%N, s2)
    end in
  match read_digits radix s3 None with
  | Some v =>
      match nearest_double v with
      | Some d => Finite (if neg then (- Z.of_N d)%Z else Z.of_N d)
      | None => Infinity neg
      end
  | None => NaN
  end.

(* ================================================================== *)
(** ** Regular expressions

    The fragment of ECMAScript regular expressions the program uses, with
    the backtracking semantics of the language: alternatives are tried in
    order, [+] is greedy and gives characters back one at a time, capture
    groups record the text they matched. *)

Inductive regex : Type :=
| REmpty
| RChar (c : ascii)
| RClass (m : string -> nat)
| RPlus (m : string -> nat)
| RSeq (r1 r2 : regex)
| RAlt (r1 r2 : regex)
| RGroup (g : nat) (r : regex)
| RBegin
| REnd.

Definition captures := list (nat * string).

Fixpoint capture (g : nat) (c : captures) : option string :=
  match c with
  | [] => None
  | (g', s) :: c' => if Nat.eqb g g' then Some s else capture g c'
  end.

(** A continuation gets the position reached, the rest of the input and
    the captures so far. *)
Definition cont := nat -> string -> captures -> option captures.

(** One character of a class off the front of the input: its length and
    what follows. *)
Definition advance (m : string -> nat) (s : string) : option (nat * string) :=
  let j := m s in
  if Nat.eqb j 0 || (String.length s <? j)%nat then None
  else Some (j, drop j s).

(** The greedy loop of [+]; the fuel is the length of the input, which
    bounds the number of characters. *)
Fixpoint plus_loop (fuel : nat) (m : string -> nat) (k : cont)
    (n : nat) (s : string) (c : captures) : option captures :=
  match fuel with
  | O => None
  | S fuel' =>
      match advance m s with
      | Some (j, rest) =>
          match plus_loop fuel' m k (n + j) rest c with
          | Some r => Some r
          | None => k (n + j) rest c
          end
      | None => None
      end
  end.

Fixpoint rmatch (r : regex) (k : cont)
    (n : nat) (s : string) (c : captures) : option captures :=
  match r with
  | REmpty => k n s c
  | RChar a =>
      match s with
      | String b s' => if Ascii.eqb a b then k (S n) s' c else None
      | EmptyString => None
      end
  | RClass m =>
      match advance m s with
      | Some (j, rest) => k (n + j) rest c
      | None => None
      end
  | RPlus m => plus_loop (String.length s) m k n s c
  | RSeq r1 r2 => rmatch r1 (fun n' s' c' => rmatch r2 k n' s' c') n s c
  | RAlt r1 r2 =>
      match rmatch r1 k n s c with
      | Some res => Some res
      | None => rmatch r2 k n s c
      end
  | RGroup g r' =>
      rmatch r' (fun n' s' c' => k n' s' ((g, take (n' - n) s) :: c')) n s c
  | RBegin => if Nat.eqb n 0 then k n s c else None
  | REnd =>
      match s with
      | EmptyString => k n s c
      | String _ _ => None
      end
  end.

Definition accept : cont := fun _ _ c => Some c.

(** [RegExp.prototype.exec] without the [g] flag: the first start position
    at which the expression matches. *)
Fixpoint search (r : regex) (n : nat) (s : string) : option captures :=
  match rmatch r accept n s [] with
  | Some c => Some c
  | None =>
      match s with
      | EmptyString => None
      | String _ s' => search r (S n) s'
      end
  end.

Definition exec (r : regex) (s : string) : option captures := search r 0 s.

Definition test (r : regex) (s : string) : bool :=
  match exec r s with Some _ => true | None => false end.

Fixpoint lit (s : string) : regex :=
  match s with
  | EmptyString => REmpty
  | String c s' => RSeq (RChar c) (lit s')
  end.

Definition seq (rs : list regex) : regex := fold_right RSeq REmpty rs.

Definition alt (rs : list regex) : regex :=
  match rs with
  | [] => REmpty
  | r :: rs' => fold_left RAlt rs' r
  end.

(** [/^(.+): line (\d+), col (\d+), (.+)$/] *)
Definition jshint_re : regex :=
  seq [RBegin; RGroup 1 (RPlus dot_char); lit ": line ";
       RGroup 2 (RPlus (byte_class is_digit)); lit ", col ";
       RGroup 3 (RPlus (byte_class is_digit)); lit ", ";
       RGroup 4 (RPlus dot_char); REnd].

(** [/^([^(]+)\((\d+),(\d+)\):\s+(error|warning)\s+(.+)$/] *)
Definition tsc_re : regex :=
  seq [RBegin; RGroup 1 (RPlus (byte_class not_lparen)); RChar "("%char;
       RGroup 2 (RPlus (byte_class is_digit)); RChar ","%char;
       RGroup 3 (RPlus (byte_class is_digit)); lit "):"; RPlus space_char;
       RGroup 4 (alt [lit "error"; lit "warning"]); RPlus space_char;
       RGroup 5 (RPlus dot_char); REnd].

(** [/\.(js|ts|tsx|vue)$/] *)
Definition extension_re : regex :=
  seq [RChar "."%char;
       RGroup 1 (alt [lit "js"; lit "ts"; lit "tsx"; lit "vue"]); REnd].

(* ================================================================== *)
(** ** Findings and the two output parsers *)

Record Finding : Type := mkFinding {
  filePath : string;
  line : number;
  column : number;
  message : string;
  severity : string;
  rule : string;
  source : string
}.

Definition jshint_issue (filePath : string) (ln : string) : list Finding :=
  match exec jshint_re ln with
  | Some m =>
      [ {| filePath := filePath;
           line := parseInt (or_default (capture 2 m) "0");
           column := parseInt (or_default (capture 3 m) "0");
           message := or_default (capture 4 m) "Unknown error";
           severity := "warning";
           rule := "jshint";
           source := "jshint" |} ]
  | None => []
  end.

Definition parseJshintOutput (output filePath : string) : list Finding :=
  flat_map (jshint_issue filePath) (split LF output).

Definition tsc_issue (ln : string) : list Finding :=
  match exec tsc_re ln with
  | Some m =>
      [ {| filePath := trim (or_default (capture 1 m) "");
           line := parseInt (or_default (capture 2 m) "0");
           column := parseInt (or_default (capture 3 m) "0");
           message := or_default (capture 5 m) "Unknown error";
           severity := or_default (capture 4 m) "error";
           rule := "typescript";
           source := "typescript" |} ]
  | None => []
  end.

Definition parseTypeScriptErrors (output : string) : list Finding :=
  flat_map tsc_issue (split LF output).

(** The two filters of the change-set collector. *)
Definition changed_files_of (gitFiles : string) : list string :=
  filter (test extension_re)
    (filter (fun file => negb (String.eqb (trim file) EmptyString))
       (split LF gitFiles)).

(* ================================================================== *)
(** ** What a regular expression denotes

    The declarative reading against which the matcher is checked:
    [denote r n pre suf c c'] says that at position [n], with [suf]
    following, [r] can match exactly [pre] and turn the captures [c] into
    [c']. *)

Fixpoint all_chars (p : ascii -> bool) (s : string) : bool :=
  match s with
  | EmptyString => true
  | String a s' => p a && all_chars p s'
  end.

(** A class accepts [ch] before [rest] when [ch] is the character it finds
    at the front of [ch ++ rest]; a run is one such character or more. *)
Definition accepts (m : string -> nat) (ch rest : string) : Prop :=
  ch <> "" /\ m (ch ++ rest) = String.length ch.

Inductive run_of (m : string -> nat) : string -> string -> Prop :=
| run_one (ch rest : string) : accepts m ch rest -> run_of m ch rest
| run_more (ch pre rest : string) :
    accepts m ch (pre ++ rest) -> run_of m pre rest ->
    run_of m (ch ++ pre) rest.

Fixpoint denote (r : regex) (n : nat) (pre suf : string) (c c' : captures)
  : Prop :=
  match r with
  | REmpty => pre = "" /\ c' = c
  | RChar a => pre = String a "" /\ c' = c
  | RClass m => accepts m pre suf /\ c' = c
  | RPlus m => run_of m pre suf /\ c' = c
  | RSeq r1 r2 =>
      exists p1 p2 c1,
        pre = p1 ++ p2 /\ denote r1 n p1 (p2 ++ suf) c c1
        /\ denote r2 (n + String.length p1) p2 suf c1 c'
  | RAlt r1 r2 => denote r1 n pre suf c c' \/ denote r2 n pre suf c c'
  | RGroup g r' => exists c1, denote r' n pre suf c c1 /\ c' = (g, pre) :: c1
  | RBegin => n = 0 /\ pre = "" /\ c' = c
  | REnd => suf = "" /\ pre = "" /\ c' = c
  end.

(** The line patterns in words. *)
Definition digits (s : string) : Prop := s <> "" /\ all_chars is_digit s = true.

(** No line terminator starts anywhere in the text. *)
Fixpoint no_terminator (s : string) : bool :=
  match s with
  | EmptyString => true
  | String _ s' =>
      Nat.eqb (first_match line_terminators s) 0 && no_terminator s'
  end.

Definition plain (s : string) : Prop := s <> "" /\ no_terminator s = true.

(** A text that cannot complete a line terminator begun before it: it is
    empty or starts with an ASCII byte. *)
Definition starts_ascii (s : string) : bool :=
  match s with
  | EmptyString => true
  | String a _ => (nat_of_ascii a <? 128)%nat
  end.

(** A text made of white space characters only. *)
Inductive blank_text : string -> Prop :=
| blank_nil : blank_text ""
| blank_cons (e s : string) :
    In e white_space -> blank_text s -> blank_text (e ++ s).

Definition blanks (s : string) : Prop := s <> "" /\ blank_text s.

(** ["<file>: line <n>, col <n>, <message>"] *)
Definition jshint_line (ln file l c m : string) : Prop :=
  ln = file ++ ": line " ++ l ++ ", col " ++ c ++ ", " ++ m
  /\ plain file /\ digits l /\ digits c /\ plain m.

(** ["<file>(<line>,<col>): <error|warning> <message>"] *)
Definition tsc_line (ln file l c sev m : string) : Prop :=
  exists w1 w2,
    ln = file ++ "(" ++ l ++ "," ++ c ++ "):" ++ w1 ++ sev ++ w2 ++ m
    /\ (file <> "" /\ all_chars not_lparen file = true)
    /\ digits l /\ digits c /\ blanks w1
    /\ (sev = "error" \/ sev = "warning") /\ blanks w2 /\ plain m.

(** The extension of a path: its last ["."] and what follows, or nothing
    when the path has no ["."]. *)
Fixpoint extension_of (p : string) : string :=
  match p with
  | EmptyString => EmptyString
  | String c p' =>
      match extension_of p' with
      | EmptyString => if Ascii.eqb c "."%char then p else EmptyString
      | e => e
      end
  end.

Definition recognized_extensions : list string := [".js"; ".ts"; ".tsx"; ".vue"].

Definition recognized (p : string) : bool :=
  existsb (String.eqb (extension_of p)) recognized_extensions.

Definition blank (p : string) : bool := String.eqb (trim p) "".

Definition no_dot (c : ascii) : bool := negb (Ascii.eqb c "."%char).

Definition jshint_pattern (ln : string) : Prop :=
  exists file l c msg, jshint_line ln file l c msg.

Definition tsc_pattern (ln : string) : Prop :=
  exists file l c sev msg, tsc_line ln file l c sev msg.

(** A TypeScript finding's path is the text before the first parenthesis
    of its line, trimmed; it is empty exactly when that text is blank. *)
Definition tsc_path_of (output : string) (f : Finding) : Prop :=
  exists ln before l c sev msg,
    In ln (split LF output) /\ tsc_line ln before l c sev msg
    /\ filePath f = trim before
    /\ (filePath f = "" <-> blank_text before).

(* ================================================================== *)
(** ** JSON values and [JSON.stringify(value, null, gap)] *)

Inductive json : Type :=
| JNull
| JBool (b : bool)
| JNum (z : Z)
| JStr (s : string)
| JArr (items : list json)
| JObj (fields : list (string * json)).

Definition hex_digit (n : nat) : ascii :=
  if (n <? 10)%nat then ascii_of_nat (48 + n) else ascii_of_nat (87 + n).

Definition escape_char (c : ascii) : string :=
  let n := nat_of_ascii c in
  let bs := String "\"%char in
  if (n =? 8)%nat then bs "b"
  else if (n =? 9)%nat then bs "t"
  else if (n =? 10)%nat then bs "n"
  else if (n =? 12)%nat then bs "f"
  else if (n =? 13)%nat then bs "r"
  else if (n =? 34)%nat then bs (String DQUOTE "")
  else if (n =? 92)%nat then bs "\"
  else if (n <? 32)%nat then
    bs ("u00" ++ String (hex_digit (n / 16)) (String (hex_digit (n mod 16)) ""))
  else String c "".

Fixpoint escape (s : string) : string :=
  match s with
  | EmptyString => EmptyString
  | String c s' => escape_char c ++ escape s'
  end.

Definition quote (s : string) : string :=
  String DQUOTE (escape s ++ String DQUOTE "").

Definition newline : string := String LF "".

(** The bracketed layout shared by arrays and objects: nothing between the
    brackets when there is no member; one member per line, indented one
    [gap] deeper, when the gap is not empty. *)
Definition layout (opening closing gap indent : string)
    (partial : list string) : string :=
  match partial with
  | [] => opening ++ closing
  | _ =>
      if truthy gap then
        let inner := indent ++ gap in
        opening ++ newline ++ inner
          ++ String.concat ("," ++ newline ++ inner) partial
          ++ newline ++ indent ++ closing
      else opening ++ String.concat "," partial ++ closing
  end.

Fixpoint serialize (gap indent : string) (v : json) : string :=
  match v with
  | JNull => "null"
  | JBool true => "true"
  | JBool false => "false"
  | JNum z =>
      match nearest_double (Z.abs_N z) with
      | Some _ => Z_to_string z
      | None => "null"
      end
  | JStr s => quote s
  | JArr items =>
      layout "[" "]" gap indent (map (serialize gap (indent ++ gap)) items)
  | JObj fields =>
      layout "{" "}" gap indent
        (map (fun '(k, x) =>
                quote k ++ ":" ++ (if truthy gap then " " else "")
                  ++ serialize gap (indent ++ gap) x) fields)
  end.

Fixpoint spaces (n : nat) : string :=
  match n with
  | O => EmptyString
  | S n' => String " "%char (spaces n')
  end.

(** [JSON.stringify(v, null, n)] for a number of spaces [n] (at most 10). *)
Definition stringify (n : nat) (v : json) : string :=
  serialize (spaces (Nat.min n 10)) "" v.

Definition number_json (n : number) : json :=
  match n with
  | Finite z => JNum z
  | NaN | Infinity _ => JNull
  end.

Definition finding_json (f : Finding) : json :=
  JObj [("filePath", JStr (filePath f));
        ("line", number_json (line f));
        ("column", number_json (column f));
        ("message", JStr (message f));
        ("severity", JStr (severity f));
        ("rule", JStr (rule f));
        ("source", JStr (source f))].

(** What [runProjectLinter] returns: whatever [JSON.parse] made of the
    ESLint output, or an array of issues built by the program. *)
Inductive report : Type :=
| ParsedJson (j : json)
| Issues (fs : list Finding).

Definition report_json (r : report) : json :=
  match r with
  | ParsedJson j => j
  | Issues fs => JArr (map finding_json fs)
  end.

(* ================================================================== *)
(** ** Thrown values and the argument-too-long signature *)

Inductive code_value : Type :=
| CodeStr (s : string)
| CodeNum (z : Z).

(** A value that is thrown or that rejects a promise: an instance of
    [Error] (with or without a [code] property), another object, or a
    primitive. *)
Inductive js_error : Type :=
| ErrorObj (code : option code_value) (msg : string)
| OtherObj (code : option code_value)
| Primitive (text : string).

Definition code_is (c : code_value) (s : string) : bool :=
  match c with
  | CodeStr s' => String.eqb s' s
  | CodeNum _ => false
  end.

Definition isArgumentTooLongError (error : js_error) : bool :=
  match error with
  | ErrorObj (Some c) _ => code_is c "E2BIG"
  | OtherObj (Some c) => code_is c "E2BIG"
  | ErrorObj None m => includes "argument list too long" (toLowerCase m)
  | OtherObj None => false
  | Primitive _ => false
  end.

(** [error instanceof Error ? error.message : String(error)] *)
Definition error_text (error : js_error) : string :=
  match error with
  | ErrorObj _ m => m
  | OtherObj _ => "[object Object]"
  | Primitive t => t
  end.

(* ================================================================== *)
(** ** The process runners as event handlers

    A spawned child delivers a sequence of events to the handlers the
    runner registered; the handlers share the variables [stdout], [stderr]
    and [settled]. The calls of [resolve] and [reject] are recorded in the
    order they are made. *)

Record GeminiResult : Type := mkResult { stdout : string; stderr : string }.

Inductive settlement : Type :=
| Resolve (r : GeminiResult)
| Reject (e : js_error).

Inductive child_event : Type :=
| StdoutData (data : string)
| StderrData (data : string)
| ErrorEvent (error : js_error)
| CloseEvent (code : option Z)
| TimerFired.

Record runner : Type := mkRunner {
  var_stdout : string;
  var_stderr : string;
  settled : bool;
  calls : list settlement;
  signals : list string;
  timer_cleared : bool;
  warned : list string
}.

Definition fresh : runner := mkRunner "" "" false [] [] false [].

Definition exit_code_text (code : option Z) : string :=
  match code with
  | Some z => Z_to_string z
  | None => "null"
  end.

Definition is_zero (code : option Z) : bool :=
  match code with
  | Some z => Z.eqb z 0
  | None => false
  end.

Definition gemini_handlers (timeoutMs : Z) (st : runner) (ev : child_event)
  : runner :=
  match ev with
  | StdoutData data =>
      mkRunner (var_stdout st ++ data) (var_stderr st) (settled st) (calls st)
        (signals st) (timer_cleared st) (warned st)
  | StderrData data =>
      mkRunner (var_stdout st) (var_stderr st ++ data) (settled st) (calls st)
        (signals st) (timer_cleared st) (warned st)
  | TimerFired =>
      if settled st then st
      else mkRunner (var_stdout st) (var_stderr st) true
             (calls st ++ [Reject (ErrorObj None
                ("Gemini CLI timed out after " ++ Z_to_string timeoutMs ++ " ms"))])
             (signals st ++ ["SIGTERM"]) (timer_cleared st) (warned st)
  | ErrorEvent error =>
      if settled st then st
      else mkRunner (var_stdout st) (var_stderr st) true
             (calls st ++ [Reject error]) (signals st) true (warned st)
  | CloseEvent code =>
      if settled st then st
      else if negb (is_zero code) then
        mkRunner (var_stdout st) (var_stderr st) true
          (calls st ++ [Reject (ErrorObj None
             ("Gemini CLI exited with code " ++ exit_code_text code
                ++ (if truthy (var_stderr st) then ": " ++ var_stderr st else "")))])
          (signals st) true (warned st)
      else
        mkRunner (var_stdout st) (var_stderr st) true
          (calls st ++ [Resolve (mkResult (var_stdout st) (var_stderr st))])
          (signals st) true
          (warned st ++
             (if truthy (trim (var_stderr st))
              then ["Gemini CLI output on stderr: " ++ var_stderr st] else []))
  end.

Definition eslint_handlers (timeoutMs : Z) (st : runner) (ev : child_event)
  : runner :=
  match ev with
  | StdoutData data =>
      mkRunner (var_stdout st ++ data) (var_stderr st) (settled st) (calls st)
        (signals st) (timer_cleared st) (warned st)
  | StderrData data =>
      mkRunner (var_stdout st) (var_stderr st ++ data) (settled st) (calls st)
        (signals st) (timer_cleared st) (warned st)
  | TimerFired =>
      if settled st then st
      else mkRunner (var_stdout st) (var_stderr st) true
             (calls st ++ [Reject (ErrorObj None
                ("ESLint timed out after " ++ Z_to_string timeoutMs ++ " ms"))])
             (signals st ++ ["SIGTERM"]) (timer_cleared st) (warned st)
  | ErrorEvent error =>
      if settled st then st
      else mkRunner (var_stdout st) (var_stderr st) true
             (calls st ++ [Reject error]) (signals st) true (warned st)
  | CloseEvent _code =>
      if settled st then st
      else mkRunner (var_stdout st) (var_stderr st) true
             (calls st ++ [Resolve (mkResult (var_stdout st) (var_stderr st))])
             (signals st) true (warned st)
  end.

(** The handlers run over the events in the order the child delivers
    them. *)
Definition deliver (handlers : runner -> child_event -> runner)
    (events : list child_event) (st : runner) : runner :=
  fold_left handlers events st.

(** A promise keeps the first call of [resolve] or [reject]. *)
Definition fate (st : runner) : option settlement := hd_error (calls st).

(* ================================================================== *)
(** ** Settlement in words *)

(** The events that can settle an invocation: the timer, an ['error'] and a
    ['close']. *)
Definition is_terminal (ev : child_event) : bool :=
  match ev with
  | TimerFired | ErrorEvent _ | CloseEvent _ => true
  | StdoutData _ | StderrData _ => false
  end.

(** What an invocation shows to the outside: the calls of [resolve] and
    [reject], the signals sent to the child, the warnings printed and the
    settlement flag. *)
Definition same_promise (a b : runner) : Prop :=
  calls a = calls b /\ signals a = signals b /\ warned a = warned b
  /\ settled a = settled b.

Definition settles_once (handlers : runner -> child_event -> runner) : Prop :=
  forall events later,
    existsb is_terminal events = true ->
    (exists s, calls (deliver handlers events fresh) = [s])
    /\ settled (deliver handlers events fresh) = true
    /\ same_promise (deliver handlers (events ++ later) fresh)
         (deliver handlers events fresh).

(** What the child wrote on each stream before it closed: the chunks of
    the ['data'] events, in order. *)
Fixpoint stdout_of (events : list child_event) : string :=
  match events with
  | [] => ""
  | StdoutData data :: rest => data ++ stdout_of rest
  | _ :: rest => stdout_of rest
  end.

Fixpoint stderr_of (events : list child_event) : string :=
  match events with
  | [] => ""
  | StderrData data :: rest => data ++ stderr_of rest
  | _ :: rest => stderr_of rest
  end.

(** An error that carries an exit code and the captured standard error. *)
Definition carries (e : js_error) (code : option Z) (err : string) : Prop :=
  includes (exit_code_text code) (error_text e) = true
  /\ includes err (error_text e) = true.

(** The exit-status contract of a runner: when the child writes its output
    and then closes, the call succeeds with what the child wrote exactly
    when the status is 0, and fails with the status and what the child
    wrote on its standard error otherwise. *)
Definition exit_status_contract
    (handlers : Z -> runner -> child_event -> runner) : Prop :=
  forall timeoutMs chunks code,
    existsb is_terminal chunks = false ->
    match fate (deliver (handlers timeoutMs) (chunks ++ [CloseEvent code]) fresh) with
    | Some (Resolve r) =>
        code = Some 0%Z /\ r = mkResult (stdout_of chunks) (stderr_of chunks)
    | Some (Reject e) => code <> Some 0%Z /\ carries e code (stderr_of chunks)
    | None => False
    end.

(** The ESLint runner resolves at ['close'] whatever the status. *)
Definition resolves_on_any_status
    (handlers : Z -> runner -> child_event -> runner) : Prop :=
  forall timeoutMs chunks code,
    existsb is_terminal chunks = false ->
    fate (deliver (handlers timeoutMs) (chunks ++ [CloseEvent code]) fresh)
    = Some (Resolve (mkResult (stdout_of chunks) (stderr_of chunks))).

(** On a successful run the reviewer's runner prints one warning with the
    standard error when that is not blank, and nothing when it is. *)
Definition warns_on_stderr
    (handlers : Z -> runner -> child_event -> runner) : Prop :=
  forall timeoutMs chunks,
    existsb is_terminal chunks = false ->
    let final :=
      deliver (handlers timeoutMs) (chunks ++ [CloseEvent (Some 0%Z)]) fresh in
    (blank_text (stderr_of chunks) -> warned final = [])
    /\ (~ blank_text (stderr_of chunks) ->
        warned final = ["Gemini CLI output on stderr: " ++ stderr_of chunks]).


(* ================================================================== *)
(** ** The platform: child processes, [JSON.parse] and the prompt text *)

(** [spawn(command, args, {stdio: pipes, shell})], with what the runner
    writes to the child's standard input before closing it and the delay
    of the timer it sets. *)
Record spawn_request : Type := mkSpawn {
  command : string;
  args : list string;
  shell : bool;
  input : string;
  timer : Z
}.

Inductive spawn_reply : Type :=
| SpawnThrows (e : js_error)
| Child (events : list child_event).

Inductive exec_reply : Type :=
| ExecOk (out err : string)
| ExecFails (e : js_error).

Inductive invocation : Type :=
| Spawned (req : spawn_request)
| Execed (command_line : string) (timeout : option Z).

(** The command line a POSIX platform hands to [/bin/sh -c] for an
    invocation that goes through a shell: [exec] passes its string as it
    is, [spawn] with [shell: true] joins the command and the arguments
    with single spaces. [None] when no shell is involved. *)
Definition shell_command (i : invocation) : option string :=
  match i with
  | Execed command_line _ => Some command_line
  | Spawned req =>
      if shell req
      then Some (String.concat " " (command req :: args req))
      else None
  end.

(** The arguments the operating system passes to the program that is
    started. *)
Definition process_argv (i : invocation) : list string :=
  match shell_command i with
  | Some line => ["/bin/sh"; "-c"; line]
  | None =>
      match i with
      | Spawned req => command req :: args req
      | Execed _ _ => []
      end
  end.

(** The time an invocation is given: the [timeout] option of [exec], the
    delay of the timer a runner sets for its child. *)
Definition time_limit (i : invocation) : option Z :=
  match i with
  | Execed _ timeout => timeout
  | Spawned req => Some (timer req)
  end.

(** The commands of the feasibility probes. *)
Definition is_probe (i : invocation) : Prop :=
  exists name,
    i = Execed ("test -f " ++ name) None \/ i = Execed ("which " ++ name) None.

(** An invocation whose command line is read by a shell. *)
Definition through_shell (i : invocation) : Prop :=
  exists line, shell_command i = Some line.

Record Platform : Type := mkPlatform {
  World : Type;
  os_exec : string -> option Z -> World -> exec_reply * World;
  os_spawn : spawn_request -> World -> spawn_reply * World;
  JSON_parse : string -> json + js_error;
  inspect : js_error -> string;
  prompt_head : string;
  prompt_tail : string
}.

(** A small platform on which the statements below are exercised: the
    world of [scripted] is the list of replies still to be given, one per
    process started, a reply of the wrong kind standing for a command that
    fails or a child that only lets its timer fire. *)
Definition scripted_exec (cmd : string) (t : option Z)
    (w : list (exec_reply + spawn_reply))
  : exec_reply * list (exec_reply + spawn_reply) :=
  match w with
  | inl r :: w' => (r, w')
  | _ :: w' => (ExecFails (ErrorObj (Some (CodeNum 1)) "Command failed"), w')
  | [] => (ExecFails (ErrorObj (Some (CodeNum 1)) "Command failed"), [])
  end.

Definition scripted_spawn (req : spawn_request)
    (w : list (exec_reply + spawn_reply))
  : spawn_reply * list (exec_reply + spawn_reply) :=
  match w with
  | inr r :: w' => (r, w')
  | _ :: w' => (Child [TimerFired], w')
  | [] => (Child [TimerFired], [])
  end.

Definition scripted : Platform :=
  mkPlatform (list (exec_reply + spawn_reply)) scripted_exec scripted_spawn
    (fun s => if String.eqb s "[]" then inl (JArr [])
              else inr (ErrorObj None "Unexpected token"))
    error_text "PROMPT " " END".

(** What a run does that can be seen from outside, in order: the processes
    it starts and the lines it prints on the console. *)
Inductive effect : Type :=
| Started (i : invocation)
| Printed (line : string).

Definition started (t : list effect) : list invocation :=
  flat_map (fun e => match e with Started i => [i] | Printed _ => [] end) t.

(** An awaited promise returns a value, throws, or never settles. *)
Inductive outcome (A : Type) : Type :=
| Returned (a : A)
| Thrown (e : js_error)
| Pending.

Arguments Returned {A} a.
Arguments Thrown {A} e.
Arguments Pending {A}.

Section Core.

Variable P : Platform.

(** An asynchronous computation: from the world it starts in to its
    outcome, the world it leaves and the effects it had on the way. *)
Definition M (A : Type) : Type := World P -> outcome A * World P * list effect.

Definition ret {A} (a : A) : M A := fun w => (Returned a, w, []).

Definition throw {A} (e : js_error) : M A := fun w => (Thrown e, w, []).

Definition bind {A B} (m : M A) (f : A -> M B) : M B :=
  fun w =>
    match m w with
    | (Returned a, w1, t1) =>
        match f a w1 with
        | (o, w2, t2) => (o, w2, (t1 ++ t2)%list)
        end
    | (Thrown e, w1, t1) => (Thrown e, w1, t1)
    | (Pending, w1, t1) => (Pending, w1, t1)
    end.

Definition try_catch {A} (m : M A) (handler : js_error -> M A) : M A :=
  fun w =>
    match m w with
    | (Thrown e, w1, t1) =>
        match handler e w1 with
        | (o, w2, t2) => (o, w2, (t1 ++ t2)%list)
        end
    | other => other
    end.

Definition log (line : string) : M unit :=
  fun w => (Returned tt, w, [Printed line]).

Notation "x <- m ;; k" := (bind m (fun x => k))
  (at level 61, m at next level, right associativity).
Notation "m ;;; k" := (bind m (fun _ => k))
  (at level 61, right associativity).

Definition execAsync (command_line : string) (timeout : option Z)
  : M GeminiResult :=
  fun w =>
    let '(reply, w1) := os_exec P command_line timeout w in
    (match reply with
     | ExecOk out err => Returned (mkResult out err)
     | ExecFails e => Thrown e
     end,
     w1, [Started (Execed command_line timeout)]).

(** [new Promise(executor)] of the two runners: spawn the child, register
    the handlers, let the events come in; the promise takes the first
    settlement. *)
Definition run_child (handlers : runner -> child_event -> runner)
    (req : spawn_request) : M GeminiResult :=
  fun w =>
    let '(reply, w1) := os_spawn P req w in
    match reply with
    | SpawnThrows e => (Thrown e, w1, [Started (Spawned req)])
    | Child events =>
        let final := deliver handlers events fresh in
        (match fate final with
         | Some (Resolve r) => Returned r
         | Some (Reject e) => Thrown e
         | None => Pending
         end,
         w1, Started (Spawned req) :: map Printed (warned final))
    end.

Definition spawnGemini (args : list string) (input : option string)
    (timeoutMs : Z) : M GeminiResult :=
  run_child (gemini_handlers timeoutMs)
    (mkSpawn "gemini" args false
       (match input with
        | Some text => if endsWith newline text then text else text ++ newline
        | None => ""
        end)
       timeoutMs).

Definition runGeminiPrompt (prompt : string) (timeoutMs : Z)
  : M GeminiResult :=
  try_catch (spawnGemini [prompt] None timeoutMs)
    (fun error =>
       if isArgumentTooLongError error then
         log "Gemini prompt exceeded argument length; streaming via stdin instead." ;;;
         spawnGemini [] (Some prompt) timeoutMs
       else throw error).

Definition spawnEslint (files : list string) (timeoutMs : Z)
  : M GeminiResult :=
  run_child (eslint_handlers timeoutMs)
    (mkSpawn "npx" (["eslint"; "--format"; "json"] ++ files) true ""
       timeoutMs).

(** What [spawnEslint (files, 30000)] asks of the platform. *)
Definition eslint_request (files : list string) : spawn_request :=
  mkSpawn "npx" (["eslint"; "--format"; "json"] ++ files) true "" 30000.

Fixpoint checkFileExists (files : list string) : M bool :=
  match files with
  | [] => ret false
  | file :: rest =>
      try_catch (execAsync ("test -f " ++ file) None ;;; ret true)
        (fun _ => checkFileExists rest)
  end.

Definition checkCommandExists (command : string) : M bool :=
  try_catch (execAsync ("which " ++ command) None ;;; ret true)
    (fun _ => ret false).

Definition eslint_configs : list string :=
  ["eslint.config.js"; ".eslintrc.js"; ".eslintrc.json"; ".eslintrc.yml";
   ".eslintrc.yaml"; ".eslintrc"].

(** The loop over the changed files in the JSHint branch. *)
Fixpoint jshint_files (files : list string) (results : list Finding)
  : M (list Finding) :=
  match files with
  | [] => ret results
  | file :: rest =>
      r <- execAsync ("jshint " ++ file) (Some 10000%Z) ;;
      jshint_files rest
        (if truthy (stderr r)
         then (results ++ parseJshintOutput (stderr r) file)%list
         else results)
  end.

Definition is_typescript (f : string) : bool :=
  endsWith ".ts" f || endsWith ".tsx" f.

(** The three branches of [runProjectLinter]; each gives [Some] report
    when it returns from the function and [None] when control goes on to
    the next branch. *)
Definition eslint_branch (changedFiles : list string) : M (option report) :=
  hasEslintConfig <- checkFileExists eslint_configs ;;
  if hasEslintConfig : bool then
    try_catch
      (r <- spawnEslint changedFiles 30000 ;;
       if truthy (trim (stdout r)) then
         match JSON_parse P (stdout r) with
         | inl j => ret (Some (ParsedJson j))
         | inr e => throw e
         end
       else ret (Some (Issues [])))
      (fun eslintError =>
         log ("ESLint execution failed, trying fallback linter: "
                ++ error_text eslintError) ;;;
         ret None)
  else ret None.

Definition jshint_branch (changedFiles : list string) : M (option report) :=
  available <- checkCommandExists "jshint" ;;
  if available : bool then
    try_catch
      (results <- jshint_files changedFiles [] ;;
       ret (Some (Issues results)))
      (fun jshintError =>
         log ("JSHint execution failed: " ++ error_text jshintError) ;;;
         ret None)
  else ret None.

Definition tsc_branch (changedFiles : list string) : M (option report) :=
  hasTsConfig <- checkFileExists ["tsconfig.json"] ;;
  if (hasTsConfig : bool) && existsb is_typescript changedFiles then
    try_catch
      (r <- execAsync "npx tsc --noEmit" (Some 30000%Z) ;;
       if truthy (stderr r)
       then ret (Some (Issues (parseTypeScriptErrors (stderr r))))
       else ret None)
      (fun tscError =>
         log ("TypeScript compilation check failed: " ++ error_text tscError) ;;;
         ret None)
  else ret None.

Definition runProjectLinter (changedFiles : list string) : M report :=
  try_catch
    (e <- eslint_branch changedFiles ;;
     match e with
     | Some r => ret r
     | None =>
         j <- jshint_branch changedFiles ;;
         match j with
         | Some r => ret r
         | None =>
             t <- tsc_branch changedFiles ;;
             match t with
             | Some r => ret r
             | None =>
                 log "No suitable linter found in project, proceeding without static analysis" ;;;
                 ret (Issues [])
             end
         end
     end)
    (fun error =>
       log ("Linter detection failed: " ++ inspect P error) ;;;
       ret (Issues [])).

Definition list_command : string :=
  "git diff HEAD --name-only --diff-filter=AM".

Definition runHybridAnalysis : M string :=
  try_catch
    (listing <- execAsync list_command None ;;
     let changedFiles := changed_files_of (stdout listing) in
     if Nat.eqb (List.length changedFiles) 0 then ret "{}"
     else
       linterReport <- runProjectLinter changedFiles ;;
       diff <- execAsync "git diff HEAD" None ;;
       ret (stringify 2
              (JObj [("diff", JStr (stdout diff));
                     ("linterReport", report_json linterReport)])))
    (fun error =>
       log ("Error in hybrid analysis: " ++ inspect P error) ;;;
       throw error).

Definition empty_result : json :=
  JObj [("summary", JStr "No relevant files changed.");
        ("assessment", JStr "");
        ("findings", JArr [])].

Definition prompt_of (analysisData : string) : string :=
  prompt_head P ++ analysisData ++ prompt_tail P.

(** What the tool handler returns: [{content: [{type: 'text', text}]}]. *)
Record content_item : Type := mkItem { item_type : string; text : string }.

Definition review_local_changes : M (list content_item) :=
  try_catch
    (analysisData <- runHybridAnalysis ;;
     if String.eqb analysisData "{}" then
       ret [mkItem "text" (stringify 2 empty_result)]
     else
       r <- runGeminiPrompt (prompt_of analysisData) 120000 ;;
       ret [mkItem "text" (stdout r)])
    (fun error =>
       let errorMessage := error_text error in
       log ("Execution failed: " ++ errorMessage) ;;;
       throw (ErrorObj None ("An unexpected error occurred: " ++ errorMessage))).

(** *** The analyzer selector in the words of its contract

    An ordered list of strategies, each a feasibility probe and an
    invocation. The first feasible strategy is invoked; only when its
    invocation fails does the selection go on with the next one; with no
    strategy left the result is the empty sequence of findings. *)
Record strategy : Type := mkStrategy {
  feasible : M bool;
  invoke : M report
}.

Fixpoint select (strategies : list strategy) : M report :=
  match strategies with
  | [] => ret (Issues [])
  | s :: rest =>
      ok <- feasible s ;;
      if ok : bool
      then try_catch (invoke s) (fun _ => select rest)
      else select rest
  end.

Definition eslint_strategy (changedFiles : list string) : strategy :=
  mkStrategy (checkFileExists eslint_configs)
    (r <- spawnEslint changedFiles 30000 ;;
     if truthy (trim (stdout r)) then
       match JSON_parse P (stdout r) with
       | inl j => ret (ParsedJson j)
       | inr e => throw e
       end
     else ret (Issues [])).

Definition jshint_strategy (changedFiles : list string) : strategy :=
  mkStrategy (checkCommandExists "jshint")
    (results <- jshint_files changedFiles [] ;; ret (Issues results)).

Definition tsc_strategy (changedFiles : list string) : strategy :=
  mkStrategy
    (hasTsConfig <- checkFileExists ["tsconfig.json"] ;;
     ret (hasTsConfig && existsb is_typescript changedFiles))
    (r <- execAsync "npx tsc --noEmit" (Some 30000%Z) ;;
     ret (Issues (parseTypeScriptErrors (stderr r)))).

(** *** The ESLint step as the contract of the process runner words it

    The contract's runner fails a call whose child exits with a status
    other than 0, with an error that carries the status and the standard
    error; the ESLint step of the contract is the strategy above on that
    runner. *)
Definition ProcessExitError (code : option Z) (err : string) : js_error :=
  ErrorObj None
    ("Process exited with code " ++ exit_code_text code ++ ": " ++ err).

Definition stated_eslint_handlers (timeoutMs : Z) (st : runner)
    (ev : child_event) : runner :=
  match ev with
  | CloseEvent code =>
      if settled st then st
      else if is_zero code then eslint_handlers timeoutMs st ev
      else mkRunner (var_stdout st) (var_stderr st) true
             (calls st ++ [Reject (ProcessExitError code (var_stderr st))])
             (signals st) true (warned st)
  | _ => eslint_handlers timeoutMs st ev
  end.

Definition stated_eslint_strategy (changedFiles : list string) : strategy :=
  mkStrategy (checkFileExists eslint_configs)
    (r <- run_child (stated_eslint_handlers 30000)
            (eslint_request changedFiles) ;;
     if truthy (trim (stdout r)) then
       match JSON_parse P (stdout r) with
       | inl j => ret (ParsedJson j)
       | inr e => throw e
       end
     else ret (Issues [])).

(** *** What the ESLint step of the program comes to

    By the event that settles the run, after the chunks the child wrote
    before it. A ['close'] settles the run whatever the exit status: blank
    output is a run without findings, other output is parsed, and only
    output that does not parse is a failure. An ['error'] event and the
    timer are failures. *)
Inductive eslint_outcome
  : list child_event -> child_event -> outcome report -> Prop :=
| no_findings (chunks : list child_event) (code : option Z) :
    blank_text (stdout_of chunks) ->
    eslint_outcome chunks (CloseEvent code) (Returned (Issues []))
| parsed_output (chunks : list child_event) (code : option Z) (j : json) :
    ~ blank_text (stdout_of chunks) ->
    JSON_parse P (stdout_of chunks) = inl j ->
    eslint_outcome chunks (CloseEvent code) (Returned (ParsedJson j))
| unparsed_output (chunks : list child_event) (code : option Z)
    (e : js_error) :
    ~ blank_text (stdout_of chunks) ->
    JSON_parse P (stdout_of chunks) = inr e ->
    eslint_outcome chunks (CloseEvent code) (Thrown e)
| child_error (chunks : list child_event) (e : js_error) :
    eslint_outcome chunks (ErrorEvent e) (Thrown e)
| timed_out (chunks : list child_event) :
    eslint_outcome chunks TimerFired
      (Thrown (ErrorObj None "ESLint timed out after 30000 ms")).

(** The failures of the ESLint step: when the child cannot be spawned the
    step throws what [spawn] threw; when the child's events are
    [chunks ++ ev :: later] with [ev] the first one that settles, the step
    comes to what [eslint_outcome] says; when no event settles, the step
    never comes back. *)
Definition eslint_step_contract (changedFiles : list string) : Prop :=
  forall w w1,
    let step := fst (fst (invoke (eslint_strategy changedFiles) w)) in
    (forall e,
        os_spawn P (eslint_request changedFiles) w = (SpawnThrows e, w1) ->
        step = Thrown e)
    /\ (forall chunks ev later,
          os_spawn P (eslint_request changedFiles) w
          = (Child (chunks ++ ev :: later), w1) ->
          existsb is_terminal chunks = false -> is_terminal ev = true ->
          eslint_outcome chunks ev step)
    /\ (forall events,
          os_spawn P (eslint_request changedFiles) w = (Child events, w1) ->
          existsb is_terminal events = false ->
          step = Pending).

(** *** Commands run one after the other

    What the platform answers to a sequence of [exec] commands, each one
    started in the world the one before left. *)
Fixpoint exec_replies (commands : list (string * option Z)) (w : World P)
  : list exec_reply :=
  match commands with
  | [] => []
  | (command_line, timeout) :: rest =>
      let '(reply, w1) := os_exec P command_line timeout w in
      reply :: exec_replies rest w1
  end.

(** A run as the rest of the pipeline sees it: its outcome, the world it
    leaves and the processes it started; the console is left out. *)
Definition observe {A} (r : outcome A * World P * list effect)
  : outcome A * World P * list invocation :=
  match r with
  | (o, w, t) => (o, w, started t)
  end.

(** A run that comes after effects that have already happened. *)
Definition preceded_by {A} (before : list effect)
    (r : outcome A * World P * list effect)
  : outcome A * World P * list effect :=
  match r with
  | (o, w, t) => (o, w, (before ++ t)%list)
  end.

(** Two computations that the rest of the pipeline cannot tell apart. *)
Definition same_run {A} (m1 m2 : M A) : Prop :=
  forall w, observe (m1 w) = observe (m2 w).

(** A computation that never throws: a failure inside it is always
    caught. *)
Definition never_throws {A} (m : M A) : Prop :=
  forall w e, fst (fst (m w)) <> Thrown e.

(** A computation all of whose processes satisfy [Q]. *)
Definition starts_only (Q : invocation -> Prop) {A} (m : M A) : Prop :=
  forall w, Forall Q (started (snd (m w))).

(** A computation that always comes back with a value. *)
Definition always_returns {A} (m : M A) : Prop :=
  forall w, exists a, fst (fst (m w)) = Returned a.

End Core.

(** The first reply that is a failure, with its position, and the position
    of the first one that is a success. *)
Fixpoint first_failure (replies : list exec_reply) : option (nat * js_error) :=
  match replies with
  | [] => None
  | ExecFails e :: _ => Some (0, e)
  | ExecOk _ _ :: rest =>
      match first_failure rest with
      | Some (k, e) => Some (S k, e)
      | None => None
      end
  end.

Fixpoint first_success (replies : list exec_reply) : option nat :=
  match replies with
  | [] => None
  | ExecOk _ _ :: _ => Some 0
  | ExecFails _ :: rest =>
      match first_success rest with
      | Some k => Some (S k)
      | None => None
      end
  end.

(** What a command wrote on its standard error. *)
Definition stderr_text (reply : exec_reply) : string :=
  match reply with
  | ExecOk _ err => err
  | ExecFails _ => ""
  end.

Definition as_invocation (c : string * option Z) : invocation :=
  Execed (fst c) (snd c).

Definition jshint_command (file : string) : string * option Z :=
  ("jshint " ++ file, Some 10000%Z).

Definition probe_command (name : string) : string * option Z :=
  ("test -f " ++ name, None).

(* ================================================================== *)
(** ** The argument transport in words *)

Definition argument_attempt (prompt : string) (timeoutMs : Z) : spawn_request :=
  mkSpawn "gemini" [prompt] false "" timeoutMs.

Definition stdin_attempt (prompt : string) (timeoutMs : Z) : spawn_request :=
  mkSpawn "gemini" []
    false (if endsWith newline prompt then prompt else prompt ++ newline)
    timeoutMs.

Definition mentions_too_long (m : string) : bool :=
  includes "argument list too long" (toLowerCase m).

(** The signature as the transport contract words it: the platform's code
    for an oversized argument vector, or a message with the phrase. *)
Definition stated_signature (e : js_error) : bool :=
  match e with
  | ErrorObj code m =>
      match code with Some c => code_is c "E2BIG" | None => false end
      || mentions_too_long m
  | OtherObj (Some c) => code_is c "E2BIG"
  | OtherObj None => false
  | Primitive _ => false
  end.

(** The signature the program recognises: the code decides when there is
    one, the message only when there is none. *)
Definition recognised_signature (e : js_error) : Prop :=
  (exists m, e = ErrorObj (Some (CodeStr "E2BIG")) m)
  \/ e = OtherObj (Some (CodeStr "E2BIG"))
  \/ (exists m, e = ErrorObj None m /\ mentions_too_long m = true).

(** The canonical empty result as text. *)
Definition quoted (s : string) : string := String DQUOTE (s ++ String DQUOTE "").

Definition empty_result_text : string :=
  String.concat newline
    ["{";
     "  " ++ quoted "summary" ++ ": " ++ quoted "No relevant files changed." ++ ",";
     "  " ++ quoted "assessment" ++ ": " ++ quoted "" ++ ",";
     "  " ++ quoted "findings" ++ ": []";
     "}"].

(** An error with a code other than the platform's and the phrase in its
    message. *)
Definition miscoded_error : js_error :=
  ErrorObj (Some (CodeStr "EACCES")) "spawn gemini: Argument list too long".

(** A path git can list and that a shell reads as a command substitution. *)
Definition hostile_path : string := "$(touch pwned).js".

(** A world for [scripted] in which an ESLint configuration exists, ESLint
    prints something that is not JSON, and JSHint is installed and silent. *)
Definition hostile_world : list (exec_reply + spawn_reply) :=
  [inl (ExecOk "" "");
   inr (Child [StdoutData "oops"; CloseEvent (Some 2%Z)]);
   inl (ExecOk "/usr/bin/jshint" "");
   inl (ExecOk "" "")].

(** A world for [scripted] in which the first start of the reviewer fails
    with the platform's code for an oversized argument vector and the
    second one succeeds. *)
Definition overflow_world : list (exec_reply + spawn_reply) :=
  [inr (Child [ErrorEvent (ErrorObj (Some (CodeStr "E2BIG")) "spawn E2BIG")]);
   inr (Child [StdoutData "{}"; CloseEvent (Some 0%Z)])].

(** The same with an error that has another code and the phrase in its
    message. *)
Definition miscoded_world : list (exec_reply + spawn_reply) :=
  [inr (Child [ErrorEvent miscoded_error]);
   inr (Child [StdoutData "{}"; CloseEvent (Some 0%Z)])].

(** A world for [scripted] in which an ESLint configuration exists, the
    ESLint child cannot run and exits with status 127 and nothing on its
    standard output, and JSHint is installed and has a finding for the
    file. *)
Definition crash_world : list (exec_reply + spawn_reply) :=
  [inl (ExecOk "" "");
   inr (Child [StderrData "sh: 1: npx: not found"; CloseEvent (Some 127%Z)]);
   inl (ExecOk "/usr/bin/jshint" "");
   inl (ExecOk "" "a.js: line 1, col 2, Missing semicolon.")].

(** A world in which the listing names no source file. *)
Definition quiet_world : list (exec_reply + spawn_reply) :=
  [inl (ExecOk (String.concat newline ["README.md"; "notes.txt"; ""]) "")].

(** A world in which one TypeScript file changed, no analyzer is set up
    and the diff is a fixed text. *)
Definition fixture_world : list (exec_reply + spawn_reply) :=
  (inl (ExecOk "a.ts" "") :: repeat (inr (Child [])) 8
   ++ [inl (ExecOk "--- fixture diff ---" "")])%list.

(** The same with a reviewer that answers. *)
Definition review_world : list (exec_reply + spawn_reply) :=
  (fixture_world
   ++ [inr (Child [StdoutData "reviewed"; CloseEvent (Some 0%Z)])])%list.

(* ================================================================== *)
(** * Properties *)


(** ** The definitions on concrete inputs *)

Example tsc_fixture :
  parseTypeScriptErrors "src/app.ts(5,12): error TS2322: Type mismatch"
  = [mkFinding "src/app.ts" (Finite 5) (Finite 12) "TS2322: Type mismatch"
       "error" "typescript" "typescript"].
Proof. vm_compute. reflexivity. Qed.

Example crlf_line_is_skipped :
  parseJshintOutput
    (String.concat newline
       ["a.js: line 1, col 2, first" ++ String CR ""; "a.js: line 3, col 4, second"])
    "a.js"
  = [mkFinding "a.js" (Finite 3) (Finite 4) "second" "warning" "jshint" "jshint"].
Proof. vm_compute. reflexivity. Qed.

Example changed_fixture :
  changed_files_of
    (String.concat newline
       ["a.js"; "b.tsx"; ""; "c.json"; "d.vue"; "e.ts"; "f.jsx"; ".js"; ""])
  = ["a.js"; "b.tsx"; "d.vue"; "e.ts"; ".js"].
Proof. vm_compute. reflexivity. Qed.

Example numbers_on_inputs :
  (Z_to_string 120000, Z_to_string 0, Z_to_string (-7),
   parseInt "010", parseInt "0x1f", parseInt "abc")
  = ("120000", "0", "-7", Finite 10, Finite 31, NaN).
Proof. vm_compute. reflexivity. Qed.

Example numbers_beyond_exact_integers :
  (parseInt "9007199254740993", Z_to_string (2 ^ 64), Z_to_string (10 ^ 21),
   Z_to_string (2 ^ 70), parseInt (String.concat "" (repeat "9" 400)),
   stringify 0 (JArr [number_json (Infinity false); number_json NaN]))
  = (Finite 9007199254740992, "18446744073709552000", "1e+21",
     "1.1805916207174113e+21", Infinity false, "[null,null]").
Proof. vm_compute. reflexivity. Qed.

Example unicode_white_space_and_terminators :
  (trim (bytes [194; 160] ++ " x " ++ bytes [239; 187; 191; 226; 128; 168]),
   map filePath
     (parseTypeScriptErrors (bytes [194; 160] ++ "(1,2): error TS1: x")),
   parseJshintOutput
     ("a.js: line 1, col 2, first" ++ bytes [226; 128; 168] ++ "rest") "a.js",
   map message
     (parseJshintOutput
        ("a.js: line 1, col 2, caf" ++ bytes [195; 169]) "a.js"))
  = ("x", [""], [], ["caf" ++ bytes [195; 169]]).
Proof. vm_compute. reflexivity. Qed.

Example payload_fixture :
  fst (fst (runHybridAnalysis scripted fixture_world))
  = Returned
      (String.concat newline
         ["{";
          "  " ++ quoted "diff" ++ ": " ++ quoted "--- fixture diff ---" ++ ",";
          "  " ++ quoted "linterReport" ++ ": []";
          "}"]).
Proof. vm_compute. reflexivity. Qed.

Example finding_as_json :
  stringify 0
    (finding_json (mkFinding "a.js" (Finite 1) NaN "m" "warning" "jshint" "jshint"))
  = "{" ++ quoted "filePath" ++ ":" ++ quoted "a.js" ++ ","
        ++ quoted "line" ++ ":1,"
        ++ quoted "column" ++ ":null,"
        ++ quoted "message" ++ ":" ++ quoted "m" ++ ","
        ++ quoted "severity" ++ ":" ++ quoted "warning" ++ ","
        ++ quoted "rule" ++ ":" ++ quoted "jshint" ++ ","
        ++ quoted "source" ++ ":" ++ quoted "jshint" ++ "}".
Proof. vm_compute. reflexivity. Qed.


(** ** Strings *)

Lemma append_nil_r (s : string) : s ++ "" = s.
Proof. induction s; simpl; congruence. Qed.

Lemma append_assoc (a b c : string) : (a ++ b) ++ c = a ++ b ++ c.
Proof. induction a; simpl; congruence. Qed.

Lemma length_append (a b : string) :
  String.length (a ++ b) = String.length a + String.length b.
Proof. induction a; simpl; congruence. Qed.

Lemma take_append (pre suf : string) :
  take (String.length pre) (pre ++ suf) = pre.
Proof. induction pre; simpl; [destruct suf; reflexivity | congruence]. Qed.

Lemma take_drop (j : nat) :
  forall s, j <= String.length s ->
    s = take j s ++ drop j s /\ String.length (take j s) = j.
Proof.
  induction j as [|j IH]; intros s H; simpl.
  - destruct s; auto.
  - destruct s as [|a s]; simpl in *; [lia|].
    destruct (IH s ltac:(lia)) as [E L]. split; congruence.
Qed.

Lemma drop_append (ch rest : string) : drop (String.length ch) (ch ++ rest) = rest.
Proof. induction ch; simpl; [now destruct rest|assumption]. Qed.

(** ** The matcher against the declarative reading *)

Lemma advance_sound (m : string -> nat) (s : string) (j : nat) (rest : string) :
  advance m s = Some (j, rest) ->
  exists ch, s = ch ++ rest /\ accepts m ch rest /\ String.length ch = j.
Proof.
  unfold advance. destruct (Nat.eqb (m s) 0) eqn:Z; [discriminate|].
  destruct (String.length s <? m s)%nat eqn:L; [discriminate|].
  simpl. intros H. injection H as <- <-.
  apply Nat.eqb_neq in Z. apply Nat.ltb_ge in L.
  destruct (take_drop (m s) s L) as [E Len].
  exists (take (m s) s). repeat split; auto.
  - intros Hnil. rewrite Hnil in Len. simpl in Len. congruence.
  - now rewrite <- E.
Qed.

Lemma advance_complete (m : string -> nat) (ch rest : string) :
  accepts m ch rest ->
  advance m (ch ++ rest) = Some (String.length ch, rest).
Proof.
  intros [Hne Hm]. unfold advance. rewrite Hm, length_append.
  destruct ch as [|a ch]; [congruence|].
  replace (Nat.eqb (String.length (String a ch)) 0) with false by reflexivity.
  replace (String.length (String a ch) + String.length rest
             <? String.length (String a ch))%nat with false
    by (symmetry; apply Nat.ltb_ge; lia).
  simpl orb. cbv iota. now rewrite drop_append.
Qed.

Lemma plus_loop_sound (m : string -> nat) (k : cont) (fuel : nat) :
  forall s n c res,
    plus_loop fuel m k n s c = Some res ->
    exists pre suf,
      s = pre ++ suf /\ run_of m pre suf
      /\ k (n + String.length pre) suf c = Some res.
Proof.
  induction fuel as [|fuel IH]; simpl; intros s n c res H; [discriminate|].
  destruct (advance m s) as [[j rest]|] eqn:A; [|discriminate].
  apply advance_sound in A as (ch & -> & Hch & <-).
  destruct (plus_loop fuel m k (n + String.length ch) rest c) eqn:Hloop.
  - injection H as <-.
    destruct (IH _ _ _ _ Hloop) as (pre & suf & -> & Hrun & Hk).
    exists (ch ++ pre), suf. rewrite append_assoc, length_append, Nat.add_assoc.
    repeat split; auto. now apply run_more.
  - exists ch, rest. repeat split; auto. now apply run_one.
Qed.

Lemma run_of_not_empty (m : string -> nat) (pre suf : string) :
  run_of m pre suf -> pre <> "".
Proof.
  intros H. destruct H as [ch rest [Hne _]|ch pre rest [Hne _] _]; [assumption|].
  destruct ch; [congruence|discriminate].
Qed.

Lemma plus_loop_complete (m : string -> nat) (k : cont)
    (pre suf : string) :
  run_of m pre suf ->
  forall fuel n c,
    String.length pre <= fuel ->
    k (n + String.length pre) suf c <> None ->
    plus_loop fuel m k n (pre ++ suf) c <> None.
Proof.
  induction 1 as [ch rest Hch|ch pre rest Hch Hrun IH]; intros fuel n c Hfuel Hk.
  - destruct fuel as [|fuel].
    { destruct Hch as [Hne _]. destruct ch; [congruence|simpl in Hfuel; lia]. }
    simpl. rewrite (advance_complete _ _ _ Hch).
    now destruct (plus_loop fuel m k (n + String.length ch) rest c).
  - assert (Hlen : 0 < String.length ch).
    { destruct Hch as [Hne _]. destruct ch; [congruence|simpl; lia]. }
    rewrite length_append in Hfuel, Hk.
    destruct fuel as [|fuel]; [lia|].
    simpl. rewrite append_assoc, (advance_complete _ _ _ Hch).
    destruct (plus_loop fuel m k (n + String.length ch) (pre ++ rest) c) eqn:E;
      [discriminate|].
    exfalso. revert E. apply IH; [lia|]. now rewrite <- Nat.add_assoc.
Qed.

Lemma rmatch_sound (r : regex) :
  forall k n s c res,
    rmatch r k n s c = Some res ->
    exists pre suf c',
      s = pre ++ suf /\ denote r n pre suf c c'
      /\ k (n + String.length pre) suf c' = Some res.
Proof.
  induction r as [ |a|m|m|r1 IH1 r2 IH2|r1 IH1 r2 IH2|g r IH| | ];
    simpl; intros k n s c res H.
  - exists "", s, c. rewrite Nat.add_0_r. auto.
  - destruct s as [|b s]; [discriminate|].
    destruct (Ascii.eqb a b) eqn:E; [|discriminate].
    apply Ascii.eqb_eq in E; subst b.
    exists (String a ""), s, c. simpl. rewrite Nat.add_1_r. auto.
  - destruct (advance m s) as [[j rest]|] eqn:A; [|discriminate].
    apply advance_sound in A as (ch & -> & Hch & <-).
    exists ch, rest, c. auto.
  - destruct (plus_loop_sound _ _ _ _ _ _ _ H) as (pre & suf & -> & ? & ?).
    exists pre, suf, c. auto.
  - destruct (IH1 _ _ _ _ _ H) as (p1 & s1 & c1 & -> & D1 & H1).
    destruct (IH2 _ _ _ _ _ H1) as (p2 & s2 & c2 & -> & D2 & H2).
    exists (p1 ++ p2), s2, c2.
    rewrite append_assoc, length_append, Nat.add_assoc.
    repeat split; auto. exists p1, p2, c1. auto.
  - destruct (rmatch r1 k n s c) eqn:E1.
    + injection H as <-.
      destruct (IH1 _ _ _ _ _ E1) as (pre & suf & c' & -> & D & Hk).
      exists pre, suf, c'. auto.
    + destruct (IH2 _ _ _ _ _ H) as (pre & suf & c' & -> & D & Hk).
      exists pre, suf, c'. auto.
  - destruct (IH _ _ _ _ _ H) as (pre & suf & c' & -> & D & Hk).
    replace (n + String.length pre - n) with (String.length pre) in Hk by lia.
    rewrite take_append in Hk.
    exists pre, suf, ((g, pre) :: c'). eauto.
  - destruct (Nat.eqb n 0) eqn:E; [|discriminate].
    apply Nat.eqb_eq in E. exists "", s, c. rewrite Nat.add_0_r. auto.
  - destruct s; [|discriminate].
    exists "", "", c. rewrite Nat.add_0_r. auto.
Qed.

Lemma rmatch_complete (r : regex) :
  forall k n pre suf c c',
    denote r n pre suf c c' ->
    k (n + String.length pre) suf c' <> None ->
    rmatch r k n (pre ++ suf) c <> None.
Proof.
  induction r as [ |a|m|m|r1 IH1 r2 IH2|r1 IH1 r2 IH2|g r IH| | ];
    simpl; intros k n pre suf c c' D Hk.
  - destruct D as [-> ->]. simpl in *. now rewrite Nat.add_0_r in Hk.
  - destruct D as [-> ->]. simpl in *. rewrite Ascii.eqb_refl.
    now rewrite Nat.add_1_r in Hk.
  - destruct D as [Hch ->]. now rewrite (advance_complete _ _ _ Hch).
  - destruct D as [Hrun ->]. apply plus_loop_complete; auto.
    rewrite length_append. lia.
  - destruct D as (p1 & p2 & c1 & -> & D1 & D2).
    rewrite append_assoc. eapply IH1; [exact D1|].
    eapply IH2; [exact D2|].
    now rewrite length_append, Nat.add_assoc in Hk.
  - destruct (rmatch r1 k n (pre ++ suf) c) eqn:E; [discriminate|].
    destruct D as [D|D].
    + exfalso. revert E. eapply IH1; eauto.
    + eapply IH2; eauto.
  - destruct D as (c1 & D & ->).
    eapply IH; [exact D|].
    replace (n + String.length pre - n) with (String.length pre) by lia.
    now rewrite take_append.
  - destruct D as (-> & -> & ->). simpl in *. exact Hk.
  - destruct D as (-> & -> & ->). simpl in *. now rewrite Nat.add_0_r in Hk.
Qed.

Lemma search_sound (r : regex) :
  forall s n m,
    search r n s = Some m ->
    exists skipped rest,
      s = skipped ++ rest
      /\ rmatch r accept (n + String.length skipped) rest [] = Some m.
Proof.
  induction s as [|a s IH]; simpl; intros n m H.
  - destruct (rmatch r accept n "" []) eqn:E; [|discriminate].
    injection H as <-. exists "", "". simpl. now rewrite Nat.add_0_r.
  - destruct (rmatch r accept n (String a s) []) eqn:E.
    + injection H as <-. exists "", (String a s). simpl.
      now rewrite Nat.add_0_r.
    + destruct (IH _ _ H) as (skipped & rest & -> & Hm).
      exists (String a skipped), rest. simpl.
      now rewrite <- plus_n_Sm.
Qed.

Lemma search_complete (r : regex) :
  forall skipped rest n,
    rmatch r accept (n + String.length skipped) rest [] <> None ->
    search r n (skipped ++ rest) <> None.
Proof.
  induction skipped as [|a skipped IH]; simpl; intros rest n H.
  - rewrite Nat.add_0_r in H.
    destruct rest; simpl; destruct (rmatch r accept n _ []); congruence.
  - destruct (rmatch r accept n _ []); [discriminate|].
    apply IH. now rewrite <- plus_n_Sm in H.
Qed.


Ltac break :=
  repeat match goal with
  | H : exists _, _ |- _ => destruct H
  | H : _ /\ _ |- _ => destruct H
  end.

Lemma exec_sound (r : regex) (s : string) (m : captures) :
  exec r s = Some m ->
  exists skipped pre suf,
    s = skipped ++ pre ++ suf
    /\ denote r (String.length skipped) pre suf [] m.
Proof.
  unfold exec. intros H.
  destruct (search_sound _ _ _ _ H) as (skipped & rest & -> & Hm).
  destruct (rmatch_sound _ _ _ _ _ _ Hm) as (pre & suf & c' & -> & D & Hk).
  injection Hk as <-. simpl in D. eauto.
Qed.

Lemma exec_complete (r : regex) (skipped pre suf : string) (m : captures) :
  denote r (String.length skipped) pre suf [] m ->
  exec r (skipped ++ pre ++ suf) <> None.
Proof.
  intros D. unfold exec. apply search_complete. simpl.
  eapply rmatch_complete; [exact D|]. discriminate.
Qed.

Lemma length_zero (s : string) : String.length s = 0 -> s = "".
Proof. destruct s; simpl; [reflexivity|discriminate]. Qed.

(** ** The character classes *)

Lemma startsWith_spec (p s : string) :
  startsWith p s = true <-> exists r, s = p ++ r.
Proof.
  revert s. induction p as [|a p IH]; intros s; simpl.
  - split; eauto.
  - destruct s as [|b s].
    + split; [discriminate|]. intros [r H]. discriminate.
    + rewrite andb_true_iff, IH. split.
      * intros [E [r ->]]. apply Ascii.eqb_eq in E. subst. eauto.
      * intros [r H]. injection H as -> ->. rewrite Ascii.eqb_refl. eauto.
Qed.

Lemma append_same_length (a b r r' : string) :
  a ++ r = b ++ r' -> String.length a = String.length b -> a = b /\ r = r'.
Proof.
  revert b. induction a as [|x a IH]; intros [|y b]; simpl; intros E L;
    try discriminate; auto.
  injection E as -> E. destruct (IH b E ltac:(lia)) as [-> ->]. auto.
Qed.

Lemma first_match_in (table : list string) (s : string) :
  first_match table s <> 0 ->
  exists e, In e table /\ startsWith e s = true
            /\ String.length e = first_match table s.
Proof.
  induction table as [|e table IH]; simpl; [congruence|].
  destruct (startsWith e s) eqn:E.
  - intros _. exists e. auto.
  - intros H. destruct (IH H) as (e' & ? & ? & ?). exists e'. auto.
Qed.

Lemma accepts_byte (p : ascii -> bool) (ch rest : string) :
  accepts (byte_class p) ch rest <-> exists a, ch = String a "" /\ p a = true.
Proof.
  unfold accepts. split.
  - intros [Hne H]. destruct ch as [|a ch]; [congruence|]. simpl in H.
    destruct (p a) eqn:E; [|discriminate].
    destruct ch; [|discriminate]. eauto.
  - intros (a & -> & E). simpl. rewrite E. split; [discriminate|reflexivity].
Qed.

Lemma run_of_byte (p : ascii -> bool) (pre suf : string) :
  run_of (byte_class p) pre suf <-> pre <> "" /\ all_chars p pre = true.
Proof.
  split.
  - induction 1 as [ch rest H|ch pre rest H _ [_ IH]];
      apply accepts_byte in H as (a & -> & E); simpl; rewrite E.
    + split; [discriminate|reflexivity].
    + split; [discriminate|assumption].
  - intros [Hne H]. induction pre as [|a pre IH]; [congruence|].
    simpl in H. apply andb_true_iff in H as [E H].
    destruct pre as [|b pre].
    + apply run_one. apply accepts_byte. eauto.
    + apply (run_more _ (String a "")).
      * apply accepts_byte. eauto.
      * apply IH; [discriminate|assumption].
Qed.

Lemma white_space_entry (e rest : string) :
  In e white_space -> e <> "" /\ space_char (e ++ rest) = String.length e.
Proof.
  unfold white_space. intros H.
  repeat (destruct H as [<-|H]; [split; [discriminate|reflexivity]|]).
  destruct H.
Qed.

Lemma accepts_space (ch rest : string) :
  accepts space_char ch rest <-> In ch white_space.
Proof.
  unfold accepts. split.
  - intros [Hne H].
    assert (Hk : first_match white_space (ch ++ rest) <> 0).
    { unfold space_char in H. rewrite H. destruct ch; [congruence|discriminate]. }
    destruct (first_match_in _ _ Hk) as (e & Hin & Hs & Hlen).
    apply startsWith_spec in Hs as [r Hs].
    unfold space_char in H. rewrite H in Hlen.
    destruct (append_same_length _ _ _ _ Hs (eq_sym Hlen)) as [-> _].
    assumption.
  - apply white_space_entry.
Qed.

Lemma run_of_space (w suf : string) :
  run_of space_char w suf <-> blanks w.
Proof.
  unfold blanks. split.
  - induction 1 as [ch rest H|ch pre rest H _ [_ IH]].
    + split; [apply H|]. apply accepts_space in H.
      rewrite <- (append_nil_r ch). apply blank_cons; [assumption|constructor].
    + split.
      * destruct H as [Hne _]. destruct ch; [congruence|discriminate].
      * apply accepts_space in H. now apply blank_cons.
  - intros [Hne H]. induction H as [|e s Hin Hs IH]; [congruence|].
    destruct s as [|b s].
    + rewrite append_nil_r. apply run_one. now apply accepts_space.
    + apply run_more; [now apply accepts_space|]. apply IH. discriminate.
Qed.

Lemma startsWith_high (e x suf : string) :
  all_chars (fun c => (128 <=? nat_of_ascii c)%nat) e = true ->
  starts_ascii suf = true ->
  startsWith e (x ++ suf) = startsWith e x.
Proof.
  intros He Hs. revert x. induction e as [|a e IH]; intros x; [reflexivity|].
  cbn [all_chars] in He. apply andb_true_iff in He as [Ha He].
  destruct x as [|b x]; cbn [append startsWith].
  - destruct suf as [|d suf]; [reflexivity|]. cbn [starts_ascii] in Hs.
    destruct (Ascii.eqb_spec a d) as [<-|]; [|reflexivity].
    apply Nat.leb_le in Ha. apply Nat.ltb_lt in Hs. lia.
  - now rewrite IH.
Qed.

(** A terminator that starts in a text is seen the same with an ASCII
    continuation after the text. *)
Lemma terminator_app (x suf : string) :
  x <> "" -> starts_ascii suf = true ->
  first_match line_terminators (x ++ suf) = first_match line_terminators x.
Proof.
  intros Hne Hs. destruct x as [|b x]; [congruence|].
  assert (H : forall a e,
             all_chars (fun c => (128 <=? nat_of_ascii c)%nat) e = true ->
             startsWith (String a e) (String b x ++ suf)
             = startsWith (String a e) (String b x)).
  { intros a e He. cbn [append startsWith]. now rewrite startsWith_high. }
  unfold line_terminators. cbn [first_match bytes fold_right].
  rewrite !H by reflexivity. reflexivity.
Qed.

Lemma accepts_dot (ch rest : string) :
  accepts dot_char ch rest
  <-> exists a, ch = String a ""
                /\ first_match line_terminators (String a rest) = 0.
Proof.
  unfold accepts. split.
  - intros [Hne H]. destruct ch as [|a ch]; [congruence|].
    cbn [append dot_char] in H.
    destruct (Nat.eqb_spec (first_match line_terminators (String a (ch ++ rest))) 0)
      as [E|E]; [|discriminate].
    destruct ch; [|discriminate]. eauto.
  - intros (a & -> & E). split; [discriminate|].
    cbn [append dot_char]. now rewrite E.
Qed.

Lemma run_of_dot (pre suf : string) :
  starts_ascii suf = true -> (run_of dot_char pre suf <-> plain pre).
Proof.
  intros Hs. unfold plain. split.
  - induction 1 as [ch rest H|ch pre rest H _ IH];
      apply accepts_dot in H as (a & -> & E).
    + split; [discriminate|].
      change (String a rest) with (String a "" ++ rest) in E.
      rewrite terminator_app in E by (assumption || discriminate).
      cbn [no_terminator]. now rewrite E.
    + destruct (IH Hs) as [_ IH'].
      split; [discriminate|].
      change (String a (pre ++ rest)) with (String a pre ++ rest) in E.
      rewrite terminator_app in E by (assumption || discriminate).
      cbn [append no_terminator]. now rewrite E, IH'.
  - intros [Hne H]. induction pre as [|a pre IH]; [congruence|].
    cbn [no_terminator] in H. apply andb_true_iff in H as [E H].
    apply Nat.eqb_eq in E.
    destruct pre as [|b pre].
    + apply run_one. apply accepts_dot. exists a. split; [reflexivity|].
      change (String a suf) with (String a "" ++ suf).
      rewrite terminator_app by (assumption || discriminate). assumption.
    + apply (run_more _ (String a "")).
      * apply accepts_dot. exists a. split; [reflexivity|].
        change (String a (String b pre ++ suf))
          with (String a (String b pre) ++ suf).
        rewrite terminator_app by (assumption || discriminate). assumption.
      * apply IH; [discriminate|assumption].
Qed.

Lemma jshint_re_sound (ln : string) (m : captures) :
  exec jshint_re ln = Some m ->
  exists file l c msg,
    jshint_line ln file l c msg
    /\ m = [(4, msg); (3, c); (2, l); (1, file)].
Proof.
  intros H. apply exec_sound in H as (skipped & pre & suf & -> & D).
  cbn in D. break. subst.
  match goal with H : String.length _ = 0 |- _ => apply length_zero in H; subst end.
  simpl in *. subst.
  repeat match goal with
  | H : run_of (byte_class _) _ _ |- _ => apply run_of_byte in H
  | H : run_of dot_char _ _ |- _ => apply run_of_dot in H; [|reflexivity]
  end.
  match goal with |- exists file l c msg, jshint_line _ file l c msg /\ [(4, ?m); (3, ?c0); (2, ?l0); (1, ?f)] = _ => exists f, l0, c0, m end.
  split; [|reflexivity].
  unfold jshint_line, digits, plain in *. repeat split; try tauto.
  rewrite ?append_assoc, ?append_nil_r. simpl. reflexivity.
Qed.

Lemma denote_seq (r1 r2 : regex) (n : nat) (p1 p2 suf : string)
    (c c1 c' : captures) :
  denote r1 n p1 (p2 ++ suf) c c1 ->
  denote r2 (n + String.length p1) p2 suf c1 c' ->
  denote (RSeq r1 r2) n (p1 ++ p2) suf c c'.
Proof. simpl. eauto 10. Qed.

Lemma denote_lit (s : string) :
  forall n suf c, denote (lit s) n s suf c c.
Proof.
  induction s as [|a s IH]; simpl; intros n suf c; [auto|].
  exists (String a ""), s, c. simpl. auto.
Qed.

Lemma denote_group_plus (g : nat) (m : string -> nat) (n : nat)
    (pre suf : string) (c : captures) :
  run_of m pre suf ->
  denote (RGroup g (RPlus m)) n pre suf c ((g, pre) :: c).
Proof. simpl. eauto 10. Qed.

Lemma denote_plus (m : string -> nat) (n : nat) (pre suf : string)
    (c : captures) :
  run_of m pre suf -> denote (RPlus m) n pre suf c c.
Proof. simpl. auto. Qed.

Lemma denote_end (n : nat) (c : captures) : denote REnd n "" "" c c.
Proof. simpl. auto. Qed.

Lemma denote_empty (n : nat) (suf : string) (c : captures) :
  denote REmpty n "" suf c c.
Proof. simpl. auto. Qed.

Lemma denote_char (a : ascii) (n : nat) (suf : string) (c : captures) :
  denote (RChar a) n (String a "") suf c c.
Proof. simpl. auto. Qed.

Ltac run :=
  first
    [ apply run_of_byte; split; assumption
    | apply run_of_space; split; assumption
    | apply run_of_dot; [reflexivity|split; assumption] ].

Ltac chain :=
  repeat first
    [ apply denote_empty | apply denote_char | apply denote_end | apply denote_lit
    | apply denote_group_plus; run
    | apply denote_plus; run
    | eapply denote_seq ].

Lemma jshint_re_complete (ln file l c msg : string) :
  jshint_line ln file l c msg -> exec jshint_re ln <> None.
Proof.
  intros (-> & [? ?] & [? ?] & [? ?] & [? ?]).
  assert (D : denote jshint_re (String.length "")
                ("" ++ file ++ ": line " ++ l ++ ", col " ++ c ++ ", "
                    ++ msg ++ "" ++ "") ""
                [] [(4, msg); (3, c); (2, l); (1, file)]).
  { unfold jshint_re, seq. cbn [fold_right].
    eapply denote_seq; [simpl; auto|]. chain. }
  apply exec_complete in D. simpl in D.
  now rewrite !append_nil_r in D.
Qed.

Ltac break_all :=
  repeat match goal with
  | H : exists _, _ |- _ => destruct H
  | H : _ /\ _ |- _ => destruct H
  | H : _ \/ _ |- _ => destruct H
  end.

Lemma tsc_re_sound (ln : string) (m : captures) :
  exec tsc_re ln = Some m ->
  exists file l c sev msg,
    tsc_line ln file l c sev msg
    /\ m = [(5, msg); (4, sev); (3, c); (2, l); (1, file)].
Proof.
  intros H. apply exec_sound in H as (skipped & pre & suf & -> & D).
  cbn in D. break_all; subst;
    match goal with
    | H : String.length _ = 0 |- _ => apply length_zero in H; subst
    end;
    simpl in *; subst;
    match goal with
    | |- exists file l c sev msg,
           _ /\ [(5, ?m); (4, ?s); (3, ?c0); (2, ?l0); (1, ?f)] = _ =>
        exists f, l0, c0, s, m
    end;
    (split; [|reflexivity]);
    repeat match goal with
    | H : run_of (byte_class _) _ _ |- _ => apply run_of_byte in H
    | H : run_of space_char _ _ |- _ => apply run_of_space in H
    | H : run_of dot_char _ _ |- _ => apply run_of_dot in H; [|reflexivity]
    end;
    unfold tsc_line, digits, plain, blanks in *;
    do 2 eexists;
    (split; [rewrite ?append_nil_r; simpl; reflexivity|]);
    repeat split; try tauto.
Qed.

Lemma denote_severity (n : nat) (sev suf : string) (c : captures) :
  sev = "error" \/ sev = "warning" ->
  denote (RGroup 4 (alt [lit "error"; lit "warning"])) n sev suf c
    ((4, sev) :: c).
Proof.
  intros H. cbn [denote alt fold_left]. exists c. split; [|reflexivity].
  destruct H as [-> | ->]; [left|right]; apply denote_lit.
Qed.

Lemma tsc_re_complete (ln file l c sev msg : string) :
  tsc_line ln file l c sev msg -> exec tsc_re ln <> None.
Proof.
  intros (w1 & w2 & -> & [? ?] & [? ?] & [? ?] & Hw1 & Hsev & Hw2 & [? ?]).
  destruct Hw1, Hw2.
  assert (D : denote tsc_re (String.length "")
                ("" ++ file ++ "(" ++ l ++ "," ++ c ++ "):" ++ w1 ++ sev
                    ++ w2 ++ msg ++ "" ++ "") ""
                [] [(5, msg); (4, sev); (3, c); (2, l); (1, file)]).
  { unfold tsc_re, seq. cbn [fold_right].
    eapply denote_seq; [simpl; auto|].
    eapply denote_seq; [chain|].
    eapply denote_seq; [apply denote_char|].
    eapply denote_seq; [chain|].
    eapply denote_seq; [apply denote_char|].
    eapply denote_seq; [chain|].
    eapply denote_seq; [apply denote_lit|].
    eapply denote_seq; [chain|].
    eapply denote_seq; [apply denote_severity; assumption|].
    chain. }
  apply exec_complete in D. simpl in D.
  now rewrite !append_nil_r in D.
Qed.


(** ** Extensions *)

Lemma extension_of_no_dot (e : string) :
  all_chars no_dot e = true -> extension_of e = "".
Proof.
  induction e as [|a e IH]; simpl; [reflexivity|].
  intros H. apply andb_prop in H as [Ha He]. rewrite (IH He).
  unfold no_dot in Ha. now destruct (Ascii.eqb a "."%char).
Qed.

Lemma extension_of_append (stem e : string) :
  all_chars no_dot e = true ->
  extension_of (stem ++ String "."%char e) = String "."%char e.
Proof.
  intros He. induction stem as [|a stem IH]; simpl.
  - now rewrite (extension_of_no_dot _ He).
  - now rewrite IH.
Qed.

Lemma extension_of_suffix (p : string) :
  exists stem, p = stem ++ extension_of p.
Proof.
  induction p as [|a p [stem IH]]; simpl.
  - now exists "".
  - destruct (extension_of p) eqn:E.
    + destruct (Ascii.eqb a "."%char).
      * now exists "".
      * exists (String a p). simpl. now rewrite append_nil_r.
    + exists (String a stem). simpl. now rewrite <- IH.
Qed.

Lemma extension_re_sound (p : string) :
  test extension_re p = true -> recognized p = true.
Proof.
  unfold test. destruct (exec extension_re p) as [m|] eqn:E; [|discriminate].
  intros _. apply exec_sound in E as (skipped & pre & suf & -> & D).
  cbn in D. break_all; subst; simpl in *; subst; rewrite ?append_nil_r;
    unfold recognized; rewrite extension_of_append by reflexivity;
    reflexivity.
Qed.

Lemma extension_re_complete (p : string) :
  recognized p = true -> test extension_re p = true.
Proof.
  unfold recognized. intros H.
  destruct (extension_of_suffix p) as [stem Hp].
  assert (G : exec extension_re p <> None).
  { rewrite Hp. simpl in H.
    repeat match type of H with
    | (?a || ?b)%bool = true =>
        apply orb_prop in H as [H|H]; [apply String.eqb_eq in H; rewrite H|]
    end; try discriminate;
    match goal with
    | |- exec _ (_ ++ ?e) <> None =>
        replace e with (e ++ "") by reflexivity
    end;
    eapply exec_complete;
    unfold extension_re, seq; cbn [fold_right alt fold_left denote];
    match goal with
    | |- exists p1 p2 c1, String "."%char ?g = _ /\ _ =>
        exists ".", g, []; split; [reflexivity|]; split; [simpl; auto|];
        exists g, "", [(1, g)]; split; [now rewrite append_nil_r|];
        split; [|exists "", "", [(1, g)]; simpl; auto];
        exists []; split; [|reflexivity]
    end.
    - left. left. left. apply denote_lit.
    - left. left. right. apply denote_lit.
    - left. right. apply denote_lit.
    - right. apply denote_lit. }
  unfold test. destruct (exec extension_re p); congruence.
Qed.

Lemma extension_re_recognized (p : string) :
  test extension_re p = recognized p.
Proof.
  destruct (recognized p) eqn:R.
  - now apply extension_re_complete.
  - destruct (test extension_re p) eqn:T; [|reflexivity].
    apply extension_re_sound in T. congruence.
Qed.

Lemma filter_filter {A} (f g : A -> bool) (l : list A) :
  filter f (filter g l) = filter (fun x => g x && f x) l.
Proof.
  induction l as [|a l IH]; simpl; [reflexivity|].
  destruct (g a); simpl; [destruct (f a)|]; now rewrite IH.
Qed.

Lemma changed_files_of_spec (gitFiles : string) :
  changed_files_of gitFiles
  = filter (fun p => negb (blank p) && recognized p) (split LF gitFiles).
Proof.
  unfold changed_files_of. rewrite filter_filter.
  apply filter_ext. intros p. unfold blank.
  now rewrite extension_re_recognized.
Qed.


(** ** Trimming *)

Lemma all_chars_append (p : ascii -> bool) (a b : string) :
  all_chars p (a ++ b) = all_chars p a && all_chars p b.
Proof.
  induction a as [|x a IH]; simpl; [reflexivity|].
  now rewrite IH, andb_assoc.
Qed.

Lemma blank_text_app (a b : string) :
  blank_text a -> blank_text b -> blank_text (a ++ b).
Proof.
  induction 1 as [|e s He Hs IH]; intros Hb; [assumption|].
  rewrite append_assoc. apply blank_cons; auto.
Qed.

Lemma blank_text_entry (e : string) : In e white_space -> blank_text e.
Proof.
  intros H. rewrite <- (append_nil_r e). apply blank_cons; [assumption|constructor].
Qed.

Lemma endsWith_spec (e s : string) :
  endsWith e s = true -> exists r, s = r ++ e.
Proof.
  induction s as [|a s IH]; cbn [endsWith]; intros H;
    apply orb_prop in H as [H|H].
  - apply String.eqb_eq in H. subst. now exists "".
  - discriminate.
  - apply String.eqb_eq in H. subst. now exists "".
  - destruct (IH H) as [r ->]. now exists (String a r).
Qed.

Lemma last_match_in (table : list string) (s : string) :
  last_match table s <> 0 ->
  exists e, In e table /\ endsWith e s = true
            /\ String.length e = last_match table s.
Proof.
  induction table as [|e table IH]; simpl; [congruence|].
  destruct (endsWith e s) eqn:E.
  - intros _. exists e. auto.
  - intros H. destruct (IH H) as (e' & ? & ? & ?). exists e'. auto.
Qed.

Lemma strip_start_split (fuel : nat) :
  forall s, exists w, s = w ++ strip_start fuel s /\ blank_text w.
Proof.
  induction fuel as [|fuel IH]; intros s; cbn [strip_start].
  - exists "". split; [reflexivity|constructor].
  - destruct (space_char s) as [|k] eqn:E.
    + exists "". split; [reflexivity|constructor].
    + destruct (first_match_in white_space s) as (e & Hin & Hs & Hlen).
      { unfold space_char in E. rewrite E. discriminate. }
      apply startsWith_spec in Hs as [r ->].
      unfold space_char in E. rewrite E in Hlen. rewrite <- Hlen, drop_append.
      destruct (IH r) as (w & Hw & Hb).
      exists (e ++ w). split; [|now apply blank_cons].
      rewrite append_assoc. now rewrite <- Hw.
Qed.

Lemma strip_end_split (fuel : nat) :
  forall s, exists w, s = strip_end fuel s ++ w /\ blank_text w.
Proof.
  induction fuel as [|fuel IH]; intros s; cbn [strip_end].
  - exists "". split; [now rewrite append_nil_r|constructor].
  - destruct (last_match white_space s) as [|k] eqn:E.
    + exists "". split; [now rewrite append_nil_r|constructor].
    + destruct (last_match_in white_space s) as (e & Hin & Hs & Hlen).
      { rewrite E. discriminate. }
      apply endsWith_spec in Hs as [r ->].
      rewrite E in Hlen. rewrite <- Hlen, length_append.
      replace (String.length r + String.length e - String.length e)
        with (String.length r) by lia.
      rewrite take_append.
      destruct (IH r) as (w & Hw & Hb).
      exists (w ++ e). split.
      * rewrite <- append_assoc. now rewrite <- Hw.
      * apply blank_text_app; [assumption|now apply blank_text_entry].
Qed.

Lemma strip_start_blank (s : string) :
  blank_text s -> forall fuel, String.length s <= fuel -> strip_start fuel s = "".
Proof.
  induction 1 as [|e s He Hs IH]; intros fuel Hfuel.
  - now destruct fuel.
  - destruct (white_space_entry e s He) as [Hne Hk].
    rewrite length_append in Hfuel.
    destruct fuel as [|fuel].
    { destruct e; [congruence|simpl in Hfuel; lia]. }
    cbn [strip_start]. rewrite Hk.
    destruct (String.length e) as [|k] eqn:El.
    { destruct e; [congruence|discriminate]. }
    rewrite <- El, drop_append. apply IH. lia.
Qed.

(** Trimming leaves nothing exactly of a text made of white space. *)
Lemma trim_empty (s : string) : trim s = "" <-> blank_text s.
Proof.
  unfold trim, trimEnd, trimStart. split.
  - intros H.
    destruct (strip_start_split (String.length s) s) as (w & Hw & Hb).
    set (s1 := strip_start (String.length s) s) in *.
    destruct (strip_end_split (String.length s1) s1) as (w' & Hw' & Hb').
    rewrite H in Hw'. simpl in Hw'. rewrite Hw, Hw'.
    now apply blank_text_app.
  - intros H. now rewrite (strip_start_blank s H).
Qed.

(** ** The parsers *)

Lemma or_default_some (s d : string) : s <> "" -> or_default (Some s) d = s.
Proof.
  intros H. unfold or_default, truthy.
  destruct (String.eqb_spec s ""); [contradiction|reflexivity].
Qed.

Lemma jshint_issue_cases (fp ln : string) :
  (jshint_issue fp ln = [] /\ exec jshint_re ln = None)
  \/ exists file l c msg,
       jshint_line ln file l c msg
       /\ jshint_issue fp ln
          = [mkFinding fp (parseInt l) (parseInt c) msg "warning" "jshint" "jshint"].
Proof.
  unfold jshint_issue. destruct (exec jshint_re ln) as [m|] eqn:E; [right|now left].
  apply jshint_re_sound in E as (file & l & c & msg & L & ->).
  exists file, l, c, msg. split; [assumption|].
  destruct L as (_ & _ & [? _] & [? _] & [? _]).
  cbn [capture Nat.eqb]. now rewrite !or_default_some.
Qed.

Lemma tsc_issue_cases (ln : string) :
  (tsc_issue ln = [] /\ exec tsc_re ln = None)
  \/ exists file l c sev msg,
       tsc_line ln file l c sev msg
       /\ tsc_issue ln
          = [mkFinding (trim file) (parseInt l) (parseInt c) msg sev
               "typescript" "typescript"].
Proof.
  unfold tsc_issue. destruct (exec tsc_re ln) as [m|] eqn:E; [right|now left].
  apply tsc_re_sound in E as (file & l & c & sev & msg & L & ->).
  exists file, l, c, sev, msg. split; [assumption|].
  destruct L as (w1 & w2 & _ & [? _] & [? _] & [? _] & _ & Hsev & _ & [? _]).
  cbn [capture Nat.eqb]. rewrite !or_default_some; auto.
  destruct Hsev; subst; discriminate.
Qed.

Lemma changed_file_not_empty (gitFiles file : string) :
  In file (changed_files_of gitFiles) -> file <> "".
Proof.
  unfold changed_files_of. intros H. apply filter_In in H as [_ H].
  intros ->. discriminate.
Qed.

Lemma Forall_flat_map {A B} (P : B -> Prop) (f : A -> list B) (l : list A) :
  (forall a, In a l -> Forall P (f a)) -> Forall P (flat_map f l).
Proof.
  induction l as [|a l IH]; simpl; intros H; [constructor|].
  apply Forall_app. split; [apply H; now left|apply IH; auto].
Qed.





(** C9. The fixture line parses to the one finding of the contract; every
    finding of the JSHint parser is a warning of source jshint; the parser
    works line by line, and a line yields one finding when it has the form
    ["<file>: line <n>, col <n>, <message>"] and nothing otherwise. *)
Theorem jshint_parser_contract (output filePath ln : string) :
  parseJshintOutput "src/app.js: line 10, col 3, Missing semicolon" "src/app.js"
  = [mkFinding "src/app.js" (Finite 10) (Finite 3) "Missing semicolon"
       "warning" "jshint" "jshint"]
  /\ Forall (fun f => severity f = "warning" /\ source f = "jshint")
       (parseJshintOutput output filePath)
  /\ parseJshintOutput output filePath
     = flat_map (jshint_issue filePath) (split LF output)
  /\ ((jshint_pattern ln /\ List.length (jshint_issue filePath ln) = 1)
      \/ (~ jshint_pattern ln /\ jshint_issue filePath ln = [])).
Proof.
  split; [vm_compute; reflexivity|]. split; [|split; [reflexivity|]].
  - apply Forall_flat_map. intros l0 _.
    destruct (jshint_issue_cases filePath l0)
      as [[-> _] | (f0 & l & c & msg & L & ->)]; repeat constructor.
  - destruct (jshint_issue_cases filePath ln)
      as [[-> E] | (f0 & l & c & msg & L & ->)].
    + right. split; [|reflexivity].
      intros (f0 & l & c & msg & L).
      now apply jshint_re_complete in L.
    + left. split; [|reflexivity]. now exists f0, l, c, msg.
Qed.

Lemma blank_text_no_dot (s : string) :
  blank_text s -> all_chars no_dot s = true.
Proof.
  induction 1 as [|e s He Hs IH]; [reflexivity|].
  rewrite all_chars_append, IH, andb_true_r.
  unfold white_space in He.
  repeat (destruct He as [<-|He]; [reflexivity|]). destruct He.
Qed.

Lemma recognized_not_blank (p : string) :
  recognized p = true -> blank p = false.
Proof.
  intros R. unfold blank.
  destruct (String.eqb_spec (trim p) "") as [e|]; [|reflexivity].
  apply trim_empty, blank_text_no_dot, extension_of_no_dot in e.
  unfold recognized in R. rewrite e in R. discriminate.
Qed.

(** C6. The change set is the listing's lines, in their order, that are
    not blank and whose extension is one of .js, .ts, .tsx and .vue; the
    blank test is subsumed by the extension test. Every member is a line of
    the listing (so a deleted file, which the listing with
    [--diff-filter=AM] does not print, is never a member) with a recognized
    extension, and every line of the listing is a member or has another
    extension. *)
Theorem change_set_keeps_recognized_extensions (gitFiles : string) :
  includes "--diff-filter=AM" list_command = true
  /\ changed_files_of gitFiles
  = filter (fun p => negb (blank p) && recognized p) (split LF gitFiles)
  /\ changed_files_of gitFiles = filter recognized (split LF gitFiles)
  /\ Forall (fun p => In p (split LF gitFiles)
                      /\ In (extension_of p) recognized_extensions)
       (changed_files_of gitFiles)
  /\ Forall (fun p => In p (changed_files_of gitFiles)
                      \/ ~ In (extension_of p) recognized_extensions)
       (split LF gitFiles).
Proof.
  assert (E : changed_files_of gitFiles = filter recognized (split LF gitFiles)).
  { rewrite changed_files_of_spec. apply filter_ext. intros p.
    destruct (recognized p) eqn:R; [|apply andb_false_r].
    now rewrite (recognized_not_blank _ R). }
  assert (R : forall p, recognized p = true
                        <-> In (extension_of p) recognized_extensions).
  { intros p. unfold recognized. rewrite existsb_exists. split.
    - intros (e & He & Heq). apply String.eqb_eq in Heq. now subst.
    - intros H. exists (extension_of p). split; [assumption|apply String.eqb_refl]. }
  split; [reflexivity|].
  split; [apply changed_files_of_spec|]. split; [exact E|]. split.
  - rewrite E. apply Forall_forall. intros p Hp.
    apply filter_In in Hp as [? Hp]. split; [assumption|now apply R].
  - apply Forall_forall. intros p Hp.
    destruct (recognized p) eqn:Rp.
    + left. rewrite E. apply filter_In. auto.
    + right. intros H. apply R in H. congruence.
Qed.


(** ** Settlement *)

Section Guarded.

Variable h : runner -> child_event -> runner.

Hypothesis frozen :
  forall st ev, settled st = true -> same_promise (h st ev) st.

Hypothesis first_settlement :
  forall st ev, settled st = false -> calls st = [] ->
    if is_terminal ev
    then settled (h st ev) = true /\ exists s, calls (h st ev) = [s]
    else settled (h st ev) = false /\ calls (h st ev) = [].

Lemma deliver_frozen (events : list child_event) :
  forall st, settled st = true -> same_promise (deliver h events st) st.
Proof.
  induction events as [|ev events IH]; simpl; intros st Hs.
  - unfold same_promise; auto.
  - destruct (frozen st ev Hs) as (Hc & Hk & Hw & Hset).
    assert (Hs' : settled (h st ev) = true) by congruence.
    destruct (IH _ Hs') as (? & ? & ? & ?).
    unfold same_promise. repeat split; congruence.
Qed.

Lemma deliver_pending (events : list child_event) :
  forall st, settled st = false -> calls st = [] ->
    existsb is_terminal events = false ->
    settled (deliver h events st) = false /\ calls (deliver h events st) = [].
Proof.
  induction events as [|ev events IH]; simpl; intros st Hs Hc Hev; [auto|].
  apply orb_false_elim in Hev as [Hev Hrest].
  pose proof (first_settlement st ev Hs Hc) as F. rewrite Hev in F.
  destruct F as [? ?]. now apply IH.
Qed.

Lemma deliver_settles (events : list child_event) :
  forall st, settled st = false -> calls st = [] ->
    existsb is_terminal events = true ->
    settled (deliver h events st) = true
    /\ exists s, calls (deliver h events st) = [s].
Proof.
  induction events as [|ev events IH]; simpl; intros st Hs Hc Hev;
    [discriminate|].
  pose proof (first_settlement st ev Hs Hc) as F.
  destruct (is_terminal ev); simpl in Hev.
  - destruct F as [Hs' [s Hc']].
    destruct (deliver_frozen events _ Hs') as (E1 & _ & _ & E4).
    rewrite E1, E4. eauto.
  - destruct F as [? ?]. now apply IH.
Qed.

Lemma deliver_at_most_once (events : list child_event) :
  List.length (calls (deliver h events fresh)) <= 1.
Proof.
  destruct (existsb is_terminal events) eqn:E.
  - destruct (deliver_settles events fresh eq_refl eq_refl E) as [_ [s ->]].
    simpl. lia.
  - destruct (deliver_pending events fresh eq_refl eq_refl E) as [_ ->].
    simpl. lia.
Qed.

Lemma guarded_settles_once : settles_once h.
Proof.
  intros events later Hev.
  destruct (deliver_settles events fresh eq_refl eq_refl Hev) as [Hs Hc].
  repeat split; try assumption;
    unfold deliver; rewrite fold_left_app;
    now apply (deliver_frozen later).
Qed.

End Guarded.

Lemma gemini_frozen (timeoutMs : Z) (st : runner) (ev : child_event) :
  settled st = true -> same_promise (gemini_handlers timeoutMs st ev) st.
Proof.
  intros H. unfold same_promise.
  destruct ev; simpl; rewrite ?H; auto.
Qed.

Lemma eslint_frozen (timeoutMs : Z) (st : runner) (ev : child_event) :
  settled st = true -> same_promise (eslint_handlers timeoutMs st ev) st.
Proof.
  intros H. unfold same_promise.
  destruct ev; simpl; rewrite ?H; auto.
Qed.

Lemma gemini_first (timeoutMs : Z) (st : runner) (ev : child_event) :
  settled st = false -> calls st = [] ->
  if is_terminal ev
  then settled (gemini_handlers timeoutMs st ev) = true
       /\ exists s, calls (gemini_handlers timeoutMs st ev) = [s]
  else settled (gemini_handlers timeoutMs st ev) = false
       /\ calls (gemini_handlers timeoutMs st ev) = [].
Proof.
  intros Hs Hc. destruct ev; simpl; rewrite ?Hs, ?Hc; simpl; eauto.
  destruct (is_zero code); simpl; rewrite ?Hc; simpl; eauto.
Qed.

Lemma eslint_first (timeoutMs : Z) (st : runner) (ev : child_event) :
  settled st = false -> calls st = [] ->
  if is_terminal ev
  then settled (eslint_handlers timeoutMs st ev) = true
       /\ exists s, calls (eslint_handlers timeoutMs st ev) = [s]
  else settled (eslint_handlers timeoutMs st ev) = false
       /\ calls (eslint_handlers timeoutMs st ev) = [].
Proof.
  intros Hs Hc. destruct ev; simpl; rewrite ?Hs, ?Hc; simpl; eauto.
Qed.

(** C2. Whatever the order in which the timer, an ['error'] and a
    ['close'] arrive, both runners call exactly one of [resolve] and
    [reject], once, as soon as one of the three has arrived; whatever
    arrives later changes neither that call, nor the signals sent, nor the
    warnings printed. Without any of the three nothing is settled. *)
Theorem settlement_is_exactly_once (timeoutMs : Z)
    (events : list child_event) :
  settles_once (gemini_handlers timeoutMs)
  /\ settles_once (eslint_handlers timeoutMs)
  /\ List.length (calls (deliver (gemini_handlers timeoutMs) events fresh)) <= 1
  /\ List.length (calls (deliver (eslint_handlers timeoutMs) events fresh)) <= 1.
Proof.
  split; [|split; [|split]].
  - apply guarded_settles_once; [apply gemini_frozen|apply gemini_first].
  - apply guarded_settles_once; [apply eslint_frozen|apply eslint_first].
  - apply deliver_at_most_once; [apply gemini_frozen|apply gemini_first].
  - apply deliver_at_most_once; [apply eslint_frozen|apply eslint_first].
Qed.

(** A timer that fires together with the exit of the process, in both
    orders, with output still arriving afterwards. *)
Lemma settlement_is_exactly_once_witness :
  calls (deliver (gemini_handlers 5)
           [StdoutData "ok"; TimerFired; CloseEvent (Some 0%Z);
            StdoutData "late"; CloseEvent (Some 1%Z)] fresh)
  = [Reject (ErrorObj None "Gemini CLI timed out after 5 ms")]
  /\ calls (deliver (gemini_handlers 5)
              [StdoutData "ok"; CloseEvent (Some 0%Z); TimerFired;
               ErrorEvent (Primitive "late")] fresh)
     = [Resolve (mkResult "ok" "")]
  /\ same_promise
       (deliver (gemini_handlers 5)
          ([StdoutData "ok"; CloseEvent (Some 0%Z)]
             ++ [TimerFired; StdoutData "late"]) fresh)
       (deliver (gemini_handlers 5) [StdoutData "ok"; CloseEvent (Some 0%Z)] fresh).
Proof.
  split; [reflexivity|]. split; [reflexivity|].
  apply (proj1 (settlement_is_exactly_once 5 [])
           [StdoutData "ok"; CloseEvent (Some 0%Z)]
           [TimerFired; StdoutData "late"]).
  reflexivity.
Defined.


(** ** Exit status *)

Lemma startsWith_append (a b : string) : startsWith a (a ++ b) = true.
Proof.
  induction a as [|x a IH]; simpl; [reflexivity|].
  now rewrite Ascii.eqb_refl.
Qed.

Lemma includes_append (a x y : string) : includes a (x ++ a ++ y) = true.
Proof.
  induction x as [|c x IH]; simpl.
  - pose proof (startsWith_append a y) as H.
    destruct (a ++ y); simpl; rewrite H; reflexivity.
  - rewrite IH. apply orb_true_r.
Qed.

Lemma includes_at_end (a x : string) : includes a (x ++ a) = true.
Proof. rewrite <- (append_nil_r a) at 2. apply includes_append. Qed.

Lemma is_zero_spec (code : option Z) : is_zero code = true <-> code = Some 0%Z.
Proof.
  destruct code as [z|]; simpl; [|split; discriminate].
  rewrite Z.eqb_eq. split; congruence.
Qed.

(** The two buffers hold what the child wrote. *)
Lemma gemini_buffers (timeoutMs : Z) (events : list child_event) :
  forall st,
    var_stdout (deliver (gemini_handlers timeoutMs) events st)
    = var_stdout st ++ stdout_of events
    /\ var_stderr (deliver (gemini_handlers timeoutMs) events st)
       = var_stderr st ++ stderr_of events.
Proof.
  induction events as [|ev events IH]; intros st; cbn [deliver fold_left].
  - cbn [stdout_of stderr_of]. now rewrite !append_nil_r.
  - unfold deliver in IH. rewrite (proj1 (IH _)), (proj2 (IH _)).
    destruct ev as [data|data|e|code|]; cbn [gemini_handlers stdout_of stderr_of];
      try (destruct (settled st); [|try destruct (negb (is_zero code))]);
      cbn [var_stdout var_stderr]; rewrite ?append_assoc; auto.
Qed.

Lemma eslint_buffers (timeoutMs : Z) (events : list child_event) :
  forall st,
    var_stdout (deliver (eslint_handlers timeoutMs) events st)
    = var_stdout st ++ stdout_of events
    /\ var_stderr (deliver (eslint_handlers timeoutMs) events st)
       = var_stderr st ++ stderr_of events.
Proof.
  induction events as [|ev events IH]; intros st; cbn [deliver fold_left].
  - cbn [stdout_of stderr_of]. now rewrite !append_nil_r.
  - unfold deliver in IH. rewrite (proj1 (IH _)), (proj2 (IH _)).
    destruct ev as [data|data|e|code|]; cbn [eslint_handlers stdout_of stderr_of];
      try destruct (settled st);
      cbn [var_stdout var_stderr]; rewrite ?append_assoc; auto.
Qed.

Lemma deliver_then (h : runner -> child_event -> runner)
    (events : list child_event) (ev : child_event) (st : runner) :
  deliver h (events ++ [ev]) st = h (deliver h events st) ev.
Proof. unfold deliver. now rewrite fold_left_app. Qed.

(** The settlement of an ESLint run, by its first settling event. *)
Lemma eslint_fate (timeoutMs : Z) (chunks later : list child_event)
    (ev : child_event) :
  existsb is_terminal chunks = false -> is_terminal ev = true ->
  fate (deliver (eslint_handlers timeoutMs) (chunks ++ ev :: later) fresh)
  = match ev with
    | CloseEvent _ =>
        Some (Resolve (mkResult (stdout_of chunks) (stderr_of chunks)))
    | ErrorEvent e => Some (Reject e)
    | _ =>
        Some (Reject (ErrorObj None
                ("ESLint timed out after " ++ Z_to_string timeoutMs ++ " ms")))
    end.
Proof.
  intros Hchunks Hev.
  destruct (deliver_pending (eslint_handlers timeoutMs)
              (eslint_first timeoutMs) chunks fresh eq_refl eq_refl Hchunks)
    as [Hs Hc].
  destruct (eslint_buffers timeoutMs chunks fresh) as [Hout Herr].
  cbn [fresh var_stdout var_stderr append] in Hout, Herr.
  unfold deliver at 1. rewrite fold_left_app. cbn [fold_left].
  fold (deliver (eslint_handlers timeoutMs) chunks fresh).
  set (before := deliver (eslint_handlers timeoutMs) chunks fresh) in *.
  fold (deliver (eslint_handlers timeoutMs) later
          (eslint_handlers timeoutMs before ev)).
  assert (Hset : settled (eslint_handlers timeoutMs before ev) = true).
  { pose proof (eslint_first timeoutMs before ev Hs Hc) as F.
    rewrite Hev in F. apply F. }
  destruct (deliver_frozen (eslint_handlers timeoutMs)
              (eslint_frozen timeoutMs) later _ Hset) as [E _].
  unfold fate. rewrite E.
  destruct ev; try discriminate; cbn [eslint_handlers]; rewrite Hs;
    cbn [calls]; rewrite Hc; cbn [app hd_error]; congruence.
Qed.

Lemma gemini_exit_status : exit_status_contract gemini_handlers.
Proof.
  intros timeoutMs chunks code Hchunks. rewrite deliver_then.
  destruct (deliver_pending (gemini_handlers timeoutMs)
              (gemini_first timeoutMs) chunks fresh eq_refl eq_refl Hchunks)
    as [Hs Hc].
  destruct (gemini_buffers timeoutMs chunks fresh) as [Hout Herr].
  cbn [fresh var_stdout var_stderr append] in Hout, Herr.
  set (before := deliver (gemini_handlers timeoutMs) chunks fresh) in *.
  unfold fate, gemini_handlers. rewrite Hs.
  destruct (is_zero code) eqn:Z0; cbn [negb calls]; rewrite Hc, ?Hout, ?Herr;
    cbn [app hd_error].
  - split; [now apply is_zero_spec|reflexivity].
  - split.
    + intros E. apply is_zero_spec in E. congruence.
    + unfold carries. cbn [error_text]. split.
      * apply includes_append.
      * destruct (truthy (stderr_of chunks)) eqn:T.
        -- rewrite <- append_assoc, <- append_assoc. apply includes_at_end.
        -- unfold truthy in T. apply negb_false_iff, String.eqb_eq in T.
           rewrite T. destruct ("Gemini CLI exited with code " ++ _); reflexivity.
Qed.

Lemma deliver_chunks_warned (h : runner -> child_event -> runner) :
  (forall st ev, is_terminal ev = false -> warned (h st ev) = warned st) ->
  forall chunks st,
    existsb is_terminal chunks = false ->
    warned (deliver h chunks st) = warned st.
Proof.
  intros Hh. induction chunks as [|ev chunks IH]; simpl; intros st H; [reflexivity|].
  apply orb_false_elim in H as [H1 H2]. rewrite IH by assumption. now apply Hh.
Qed.

Lemma gemini_warns : warns_on_stderr gemini_handlers.
Proof.
  intros timeoutMs chunks Hchunks final. subst final. rewrite deliver_then.
  destruct (deliver_pending (gemini_handlers timeoutMs)
              (gemini_first timeoutMs) chunks fresh eq_refl eq_refl Hchunks)
    as [Hs Hc].
  destruct (gemini_buffers timeoutMs chunks fresh) as [_ Herr].
  cbn [fresh var_stderr append] in Herr.
  assert (Hw : warned (deliver (gemini_handlers timeoutMs) chunks fresh) = []).
  { apply (deliver_chunks_warned (gemini_handlers timeoutMs)); [|assumption].
    intros st ev Hev. destruct ev; try discriminate; reflexivity. }
  set (before := deliver (gemini_handlers timeoutMs) chunks fresh) in *.
  unfold gemini_handlers. rewrite Hs. cbn [is_zero Z.eqb negb warned].
  rewrite Hw, Herr. cbn [app]. unfold truthy.
  destruct (String.eqb_spec (trim (stderr_of chunks)) "") as [E|E];
    cbn [negb]; split; intros H; try reflexivity.
  - apply trim_empty in E. contradiction.
  - apply trim_empty in H. contradiction.
Qed.

(** C1 (amended). When the reviewer's child writes its output and closes,
    the call succeeds with what the child wrote exactly when the exit
    status is 0, and fails otherwise with an error whose message has the
    exit code and the standard error; on success a standard error that is
    not blank is printed as a warning, a blank one is not. The ESLint
    runner succeeds with what the child wrote whatever the exit status. *)
Theorem exit_status_decides_reviewer_runs :
  exit_status_contract gemini_handlers
  /\ warns_on_stderr gemini_handlers
  /\ resolves_on_any_status eslint_handlers.
Proof.
  split; [apply gemini_exit_status|]. split; [apply gemini_warns|].
  intros timeoutMs chunks code Hchunks. rewrite deliver_then.
  destruct (deliver_pending (eslint_handlers timeoutMs)
              (eslint_first timeoutMs) chunks fresh eq_refl eq_refl Hchunks)
    as [Hs Hc].
  destruct (eslint_buffers timeoutMs chunks fresh) as [Hout Herr].
  cbn [fresh var_stdout var_stderr append] in Hout, Herr.
  set (before := deliver (eslint_handlers timeoutMs) chunks fresh) in *.
  unfold fate, eslint_handlers. rewrite Hs.
  cbn [calls]. now rewrite Hc, Hout, Herr.
Qed.

Lemma exit_status_decides_reviewer_runs_witness :
  fate (deliver (gemini_handlers 120000)
          [StdoutData "{"; StderrData "note"; StdoutData "}";
           CloseEvent (Some 0%Z)] fresh)
  = Some (Resolve (mkResult "{}" "note"))
  /\ match fate (deliver (gemini_handlers 120000)
                   ([StderrData "bo"; StderrData "om"] ++ [CloseEvent (Some 2%Z)])
                   fresh) with
     | Some (Resolve r) => Some 2%Z = Some 0%Z /\ r = mkResult "" "boom"
     | Some (Reject e) => Some 2%Z <> Some 0%Z /\ carries e (Some 2%Z) "boom"
     | None => False
     end.
Proof.
  split; [reflexivity|].
  apply (proj1 exit_status_decides_reviewer_runs 120000%Z
           [StderrData "bo"; StderrData "om"] (Some 2%Z)).
  reflexivity.
Defined.

(** C1 as stated fails twice. For the ESLint runner an exit status of 2
    resolves the call. For the reviewer's runner a standard error that is
    not empty but blank, here one space or one no-break space, is not
    printed as a warning. *)
Lemma stated_exit_contract_fails :
  ~ exit_status_contract eslint_handlers
  /\ (let final := deliver (gemini_handlers 120000)
                     [StdoutData "{}"; StderrData " "; CloseEvent (Some 0%Z)]
                     fresh in
      fate final = Some (Resolve (mkResult "{}" " ")) /\ warned final = [])
  /\ warned (deliver (gemini_handlers 120000)
               [StderrData (bytes [194; 160]); CloseEvent (Some 0%Z)] fresh)
     = [].
Proof.
  split; [|split; [split|]; reflexivity].
  intros H.
  specialize (H 30000%Z [StdoutData "[]"] (Some 2%Z) eq_refl).
  simpl in H. destruct H as [H _]. discriminate.
Qed.


(** ** Computations up to the console *)

Lemma started_app (a b : list effect) :
  started (a ++ b) = (started a ++ started b)%list.
Proof. unfold started. apply flat_map_app. Qed.

Lemma started_printed (lines : list string) : started (map Printed lines) = [].
Proof. induction lines; simpl; auto. Qed.

Section Runs.

Variable P : Platform.

Lemma same_run_refl {A} (m : M P A) : same_run P m m.
Proof. intros w. reflexivity. Qed.

Lemma same_run_trans {A} (m1 m2 m3 : M P A) :
  same_run P m1 m2 -> same_run P m2 m3 -> same_run P m1 m3.
Proof. intros H1 H2 w. now rewrite H1. Qed.

Lemma same_run_sym {A} (m1 m2 : M P A) :
  same_run P m1 m2 -> same_run P m2 m1.
Proof. intros H w. now rewrite H. Qed.

Lemma same_run_bind {A B} (m1 m2 : M P A) (f1 f2 : A -> M P B) :
  same_run P m1 m2 -> (forall a, same_run P (f1 a) (f2 a)) ->
  same_run P (bind P m1 f1) (bind P m2 f2).
Proof.
  intros Hm Hf w. specialize (Hm w). unfold bind, observe in *.
  destruct (m1 w) as [[o1 w1] t1], (m2 w) as [[o2 w2] t2].
  injection Hm as -> -> Ht.
  destruct o2 as [a| |]; rewrite ?Ht; try reflexivity.
  specialize (Hf a w2). unfold observe in Hf.
  destruct (f1 a w2) as [[o1' w1'] t1'], (f2 a w2) as [[o2' w2'] t2'].
  injection Hf as -> -> Ht'. now rewrite !started_app, Ht, Ht'.
Qed.

Lemma same_run_try {A} (m1 m2 : M P A) (h1 h2 : js_error -> M P A) :
  same_run P m1 m2 -> (forall e, same_run P (h1 e) (h2 e)) ->
  same_run P (try_catch P m1 h1) (try_catch P m2 h2).
Proof.
  intros Hm Hh w. specialize (Hm w). unfold try_catch, observe in *.
  destruct (m1 w) as [[o1 w1] t1], (m2 w) as [[o2 w2] t2].
  injection Hm as -> -> Ht.
  destruct o2 as [a|e|]; rewrite ?Ht; try reflexivity.
  specialize (Hh e w2). unfold observe in Hh.
  destruct (h1 e w2) as [[o1' w1'] t1'], (h2 e w2) as [[o2' w2'] t2'].
  injection Hh as -> -> Ht'. now rewrite !started_app, Ht, Ht'.
Qed.

(** A line on the console changes nothing that is observed. *)
Lemma same_run_log {A} (line : string) (m : M P A) :
  same_run P (bind P (log P line) (fun _ => m)) m.
Proof.
  intros w. unfold bind, log, observe. now destruct (m w) as [[o w1] t1].
Qed.

Lemma same_run_if {A} (b : bool) (m1 m2 n1 n2 : M P A) :
  same_run P m1 m2 -> same_run P n1 n2 ->
  same_run P (if b then m1 else n1) (if b then m2 else n2).
Proof. now destruct b. Qed.

(** The monad laws the selector proof uses, as equalities of runs. *)
Lemma bind_assoc {A B C} (m : M P A) (f : A -> M P B) (g : B -> M P C) :
  forall w, bind P (bind P m f) g w = bind P m (fun a => bind P (f a) g) w.
Proof.
  intros w. unfold bind.
  destruct (m w) as [[[a|e|] w1] t1]; try reflexivity.
  destruct (f a w1) as [[[b|e|] w2] t2]; try reflexivity.
  destruct (g b w2) as [[o w3] t3]. now rewrite app_assoc.
Qed.

Lemma bind_ret_l {A B} (a : A) (f : A -> M P B) :
  forall w, bind P (ret P a) f w = f a w.
Proof. intros w. unfold bind, ret. now destruct (f a w) as [[o w1] t1]. Qed.

Lemma bind_if {A B} (b : bool) (m1 m2 : M P A) (f : A -> M P B) :
  forall w, bind P (if b then m1 else m2) f w
            = (if b then bind P m1 f else bind P m2 f) w.
Proof. now destruct b. Qed.

Lemma try_catch_never_throws {A} (m : M P A) (h : js_error -> M P A) :
  never_throws P m -> forall w, try_catch P m h w = m w.
Proof.
  intros H w. specialize (H w). unfold try_catch.
  destruct (m w) as [[[a|e|] w1] t1]; try reflexivity.
  now destruct (H e).
Qed.

Lemma never_throws_ret {A} (a : A) : never_throws P (ret P a).
Proof. intros w e. discriminate. Qed.

Lemma never_throws_bind {A B} (m : M P A) (f : A -> M P B) :
  never_throws P m -> (forall a, never_throws P (f a)) ->
  never_throws P (bind P m f).
Proof.
  intros Hm Hf w e. specialize (Hm w). unfold bind.
  destruct (m w) as [[[a|e'|] w1] t1]; simpl; try discriminate.
  - specialize (Hf a w1 e). now destruct (f a w1) as [[o w2] t2].
  - now destruct (Hm e').
Qed.

Lemma never_throws_try {A} (m : M P A) (h : js_error -> M P A) :
  (forall e, never_throws P (h e)) -> never_throws P (try_catch P m h).
Proof.
  intros Hh w e. unfold try_catch.
  destruct (m w) as [[[a|e'|] w1] t1]; simpl; try discriminate.
  specialize (Hh e' w1 e). now destruct (h e' w1) as [[o w2] t2].
Qed.

Lemma never_throws_log (line : string) : never_throws P (log P line).
Proof. intros w e. discriminate. Qed.

Lemma never_throws_if {A} (b : bool) (m1 m2 : M P A) :
  never_throws P m1 -> never_throws P m2 ->
  never_throws P (if b then m1 else m2).
Proof. now destruct b. Qed.

Lemma checkFileExists_never_throws (files : list string) :
  never_throws P (checkFileExists P files).
Proof.
  induction files as [|file rest IH]; simpl.
  - apply never_throws_ret.
  - apply never_throws_try. intros _. exact IH.
Qed.

Lemma checkCommandExists_never_throws (command : string) :
  never_throws P (checkCommandExists P command).
Proof. apply never_throws_try. intros _. apply never_throws_ret. Qed.

Lemma checkFileExists_always_returns (files : list string) :
  always_returns P (checkFileExists P files).
Proof.
  induction files as [|file rest IH]; intros w; simpl.
  - now exists false.
  - unfold try_catch, bind, execAsync, ret.
    destruct (os_exec P _ None w) as [[out err|e] w1].
    + now exists true.
    + destruct (IH w1) as [b Hb].
      destruct (checkFileExists P rest w1) as [[o w2] t2]. now exists b.
Qed.

End Runs.


(** ** The analyzer selector *)

Section Selector.

Variable P : Platform.

Ltac traces :=
  simpl; rewrite ?started_app; simpl;
  rewrite ?app_nil_r, <- ?app_assoc; simpl; try congruence.

(** One branch of [runProjectLinter] against one step of [select]. *)
Lemma branch_is_a_strategy (probe : M P bool)
    (body : M P (option report)) (inv : M P report)
    (note : js_error -> string) (K S : M P report) :
  (forall w, body w = bind P inv (fun y => ret P (Some y)) w) ->
  same_run P K S ->
  same_run P
    (bind P
       (bind P probe (fun has : bool =>
          if has
          then try_catch P body
                 (fun e => bind P (log P (note e)) (fun _ => ret P None))
          else ret P None))
       (fun x => match x with Some r => ret P r | None => K end))
    (bind P probe (fun ok : bool =>
       if ok then try_catch P inv (fun _ => S) else S)).
Proof.
  intros Hbody HK w. unfold observe, bind at 1 2 4.
  destruct (probe w) as [[[has|e|] w1] t1]; try reflexivity.
  destruct has.
  - unfold try_catch. rewrite Hbody. unfold bind, ret, log.
    destruct (inv w1) as [[[y|e|] w2] t2]; traces.
    specialize (HK w2). unfold observe in HK.
    destruct (K w2) as [[o3 w3] t3], (S w2) as [[o4 w4] t4].
    injection HK as -> -> Ht. traces.
  - unfold ret. simpl.
    specialize (HK w1). unfold observe in HK.
    destruct (K w1) as [[o3 w3] t3], (S w1) as [[o4 w4] t4].
    injection HK as -> -> Ht. traces.
Qed.

Lemma eslint_body_is_invoke (files : list string) :
  forall w,
    bind P (spawnEslint P files 30000) (fun r =>
      if truthy (trim (stdout r)) then
        match JSON_parse P (stdout r) with
        | inl j => ret P (Some (ParsedJson j))
        | inr e => throw P e
        end
      else ret P (Some (Issues []))) w
    = bind P (invoke P (eslint_strategy P files))
        (fun y => ret P (Some y)) w.
Proof.
  intros w. unfold eslint_strategy, invoke, bind, ret, throw.
  destruct (spawnEslint P files 30000 w) as [[[r|e|] w1] t1];
    try reflexivity.
  destruct (truthy (trim (stdout r)));
    [destruct (JSON_parse P (stdout r))|];
    simpl; rewrite ?app_nil_r; reflexivity.
Qed.

Lemma jshint_body_is_invoke (files : list string) :
  forall w,
    bind P (jshint_files P files [])
      (fun results => ret P (Some (Issues results))) w
    = bind P (invoke P (jshint_strategy P files))
        (fun y => ret P (Some y)) w.
Proof.
  intros w. unfold jshint_strategy, invoke, bind, ret.
  destruct (jshint_files P files [] w) as [[[r|e|] w1] t1];
    simpl; rewrite ?app_nil_r; reflexivity.
Qed.

Lemma truthy_false (s : string) : truthy s = false -> s = "".
Proof. unfold truthy. intros H. now apply negb_false_iff, String.eqb_eq in H. Qed.

(** The last branch, where an empty standard error of the compiler falls
    through to the empty result. *)
Lemma tsc_branch_is_a_strategy (files : list string) :
  same_run P
    (bind P (tsc_branch P files) (fun t =>
       match t with
       | Some r => ret P r
       | None =>
           bind P (log P "No suitable linter found in project, proceeding without static analysis")
             (fun _ => ret P (Issues []))
       end))
    (select P [tsc_strategy P files]).
Proof.
  intros w.
  unfold tsc_branch, select, tsc_strategy, feasible, invoke, observe,
    bind, try_catch, ret, log, execAsync.
  destruct (checkFileExists P ["tsconfig.json"] w) as [[[has|e|] w1] t1];
    try reflexivity.
  destruct (has && existsb is_typescript files); [|traces].
  destruct (os_exec P "npx tsc --noEmit" (Some 30000%Z) w1) as [[out err|e] w2];
    [|traces].
  cbn [stderr stdout]. destruct (truthy err) eqn:T; [traces|].
  apply truthy_false in T. subst err. traces. reflexivity.
Qed.

Lemma branches_never_throw (files : list string) :
  never_throws P (eslint_branch P files)
  /\ never_throws P (jshint_branch P files)
  /\ never_throws P (tsc_branch P files).
Proof.
  repeat split.
  - apply never_throws_bind; [apply checkFileExists_never_throws|].
    intros has. apply never_throws_if; [|apply never_throws_ret].
    apply never_throws_try. intros e.
    apply never_throws_bind; [apply never_throws_log|].
    intros _. apply never_throws_ret.
  - apply never_throws_bind; [apply checkCommandExists_never_throws|].
    intros has. apply never_throws_if; [|apply never_throws_ret].
    apply never_throws_try. intros e.
    apply never_throws_bind; [apply never_throws_log|].
    intros _. apply never_throws_ret.
  - apply never_throws_bind; [apply checkFileExists_never_throws|].
    intros has. apply never_throws_if; [|apply never_throws_ret].
    apply never_throws_try. intros e.
    apply never_throws_bind; [apply never_throws_log|].
    intros _. apply never_throws_ret.
Qed.

Lemma selector_refines_contract (files : list string) :
  same_run P (runProjectLinter P files)
    (select P [eslint_strategy P files; jshint_strategy P files;
               tsc_strategy P files]).
Proof.
  destruct (branches_never_throw files) as (He & Hj & Ht).
  intros w. unfold runProjectLinter.
  rewrite try_catch_never_throws.
  2:{ apply never_throws_bind; [exact He|]. intros [r|]; [apply never_throws_ret|].
      apply never_throws_bind; [exact Hj|]. intros [r|]; [apply never_throws_ret|].
      apply never_throws_bind; [exact Ht|]. intros [r|]; [apply never_throws_ret|].
      apply never_throws_bind; [apply never_throws_log|].
      intros _. apply never_throws_ret. }
  revert w. change (same_run P
    (bind P (eslint_branch P files) (fun e =>
       match e with
       | Some r => ret P r
       | None =>
           bind P (jshint_branch P files) (fun j =>
             match j with
             | Some r => ret P r
             | None =>
                 bind P (tsc_branch P files) (fun t =>
                   match t with
                   | Some r => ret P r
                   | None =>
                       bind P (log P "No suitable linter found in project, proceeding without static analysis")
                         (fun _ => ret P (Issues []))
                   end)
             end)
       end))
    (select P [eslint_strategy P files; jshint_strategy P files;
               tsc_strategy P files])).
  unfold eslint_branch, jshint_branch.
  cbn [select].
  apply (branch_is_a_strategy _ _ (invoke P (eslint_strategy P files))
           (fun e => "ESLint execution failed, trying fallback linter: " ++ error_text e)).
  { apply eslint_body_is_invoke. }
  apply (branch_is_a_strategy _ _ (invoke P (jshint_strategy P files))
           (fun e => "JSHint execution failed: " ++ error_text e)).
  { apply jshint_body_is_invoke. }
  apply tsc_branch_is_a_strategy.
Qed.

Lemma bind_run {A B} (m : M P A) (f : A -> M P B) (w : World P) :
  bind P m f w
  = match m w with
    | (Returned a, w1, t1) => preceded_by P t1 (f a w1)
    | (Thrown e, w1, t1) => (Thrown e, w1, t1)
    | (Pending, w1, t1) => (Pending, w1, t1)
    end.
Proof. reflexivity. Qed.

Lemma select_cons (s : strategy P) (rest : list (strategy P)) :
  select P (s :: rest)
  = bind P (feasible P s) (fun ok : bool =>
      if ok then try_catch P (invoke P s) (fun _ => select P rest)
      else select P rest).
Proof. reflexivity. Qed.

Lemma not_blank_truthy (s : string) :
  (blank_text s -> truthy (trim s) = false)
  /\ (~ blank_text s -> truthy (trim s) = true).
Proof.
  unfold truthy. destruct (String.eqb_spec (trim s) "") as [E|E]; split;
    intros H; try reflexivity.
  - apply trim_empty in E. contradiction.
  - apply trim_empty in H. contradiction.
Qed.

Lemma eslint_step (files : list string) : eslint_step_contract P files.
Proof.
  intros w w1 step. subst step.
  unfold eslint_strategy, invoke, spawnEslint.
  change (mkSpawn "npx" (["eslint"; "--format"; "json"] ++ files) true ""
            30000) with (eslint_request files).
  rewrite bind_run. unfold run_child.
  split; [|split].
  - intros e H. now rewrite H.
  - intros chunks ev later H Hchunks Hev. rewrite H.
    rewrite (eslint_fate 30000 chunks later ev Hchunks Hev).
    destruct ev as [data|data|e| code|]; try discriminate;
      cbn [preceded_by fst]; try constructor.
    cbn [stdout]. unfold ret, throw.
    destruct (not_blank_truthy (stdout_of chunks)) as [Hb Hn].
    destruct (truthy (trim (stdout_of chunks))) eqn:T.
    + assert (Hnb : ~ blank_text (stdout_of chunks)).
      { intros B. apply Hb in B. congruence. }
      destruct (JSON_parse P (stdout_of chunks)) as [j|e] eqn:J;
        cbn [preceded_by fst].
      * now apply parsed_output.
      * now apply unparsed_output.
    + cbn [preceded_by fst]. apply no_findings.
      destruct (String.eqb_spec (trim (stdout_of chunks)) "") as [E|E].
      * now apply trim_empty.
      * unfold truthy in T. apply negb_false_iff, String.eqb_eq in T.
        contradiction.
  - intros events H Hev. rewrite H.
    destruct (deliver_pending (eslint_handlers 30000) (eslint_first 30000)
                events fresh eq_refl eq_refl Hev) as [_ Hc].
    unfold fate. now rewrite Hc.
Qed.

(** The case of a child that closes with nothing but white space on its
    standard output, seen from the selector. *)
Lemma blank_close_ends_the_selection (files : list string)
    (w w1 w2 : World P) (t1 : list effect)
    (chunks later : list child_event) (code : option Z) :
  checkFileExists P eslint_configs w = (Returned true, w1, t1) ->
  os_spawn P (eslint_request files) w1
  = (Child (chunks ++ CloseEvent code :: later), w2) ->
  existsb is_terminal chunks = false ->
  blank_text (stdout_of chunks) ->
  observe P (runProjectLinter P files w)
  = (Returned (Issues []), w2,
     (started t1 ++ [Spawned (eslint_request files)])%list).
Proof.
  intros Hprobe Hspawn Hchunks Hblank.
  rewrite (selector_refines_contract files w).
  rewrite select_cons, bind_run.
  change (feasible P (eslint_strategy P files))
    with (checkFileExists P eslint_configs).
  rewrite Hprobe. unfold try_catch, eslint_strategy, invoke, spawnEslint.
  change (mkSpawn "npx" (["eslint"; "--format"; "json"] ++ files) true ""
            30000) with (eslint_request files).
  rewrite bind_run. unfold run_child. rewrite Hspawn.
  rewrite (eslint_fate 30000 chunks later (CloseEvent code) Hchunks eq_refl).
  cbn [stdout].
  rewrite (proj1 (not_blank_truthy (stdout_of chunks)) Hblank).
  unfold ret, preceded_by, observe.
  rewrite !started_app. cbn [started flat_map app].
  fold (started (map Printed
                   (warned (deliver (eslint_handlers 30000)
                              (chunks ++ CloseEvent code :: later) fresh)))).
  now rewrite started_printed.
Qed.

Lemma runProjectLinter_never_throws (files : list string) :
  never_throws P (runProjectLinter P files).
Proof.
  unfold runProjectLinter. apply never_throws_try. intros e.
  apply never_throws_bind; [apply never_throws_log|].
  intros _. apply never_throws_ret.
Qed.


End Selector.


(** ** The argument transport and the orchestrator *)

Lemma recognised_signature_spec (e : js_error) :
  isArgumentTooLongError e = true <-> recognised_signature e.
Proof.
  unfold recognised_signature. split.
  - destruct e as [[[s|z]|] m|[[s|z]|]|t]; simpl; try discriminate.
    + intros H. apply String.eqb_eq in H. subst. left. now exists m.
    + intros H. right. right. now exists m.
    + intros H. apply String.eqb_eq in H. subst. right. now left.
  - intros [[m ->]|[->|(m & -> & H)]]; simpl; auto.
Qed.

Section Orchestrator.

Variable P : Platform.

Lemma run_child_started (handlers : runner -> child_event -> runner)
    (req : spawn_request) (w : World P) :
  started (snd (run_child P handlers req w)) = [Spawned req].
Proof.
  unfold run_child. destruct (os_spawn P req w) as [[e|events] w1]; simpl;
    [reflexivity|].
  now rewrite started_printed.
Qed.

Lemma try_catch_run {A} (m : M P A) (h : js_error -> M P A) (w : World P) :
  try_catch P m h w
  = match m w with
    | (Thrown e, w1, t1) => preceded_by P t1 (h e w1)
    | other => other
    end.
Proof. reflexivity. Qed.

(** C4 (amended). The reviewer is first started with the prompt as its
    only argument. When that attempt fails with an error whose code is
    E2BIG, or that has no code and whose message has the phrase
    "argument list too long" in any case, it is started once more, with no
    argument and the prompt, ended by a newline, on its standard input, and
    that second attempt decides the result. Any other failure is thrown as
    it is, and a success is returned as it is, with no second start. *)
Theorem transport_retries_on_recognised_signature
    (prompt : string) (timeoutMs : Z) (w : World P) (error : js_error) :
  (isArgumentTooLongError error = true <-> recognised_signature error)
  /\ match spawnGemini P [prompt] None timeoutMs w with
     | (Thrown e, w1, t1) =>
         started t1 = [Spawned (argument_attempt prompt timeoutMs)]
         /\ if isArgumentTooLongError e
            then observe P (runGeminiPrompt P prompt timeoutMs w)
                 = observe P (preceded_by P t1
                     (spawnGemini P [] (Some prompt) timeoutMs w1))
                 /\ started (snd (runGeminiPrompt P prompt timeoutMs w))
                    = [Spawned (argument_attempt prompt timeoutMs);
                       Spawned (stdin_attempt prompt timeoutMs)]
            else runGeminiPrompt P prompt timeoutMs w = (Thrown e, w1, t1)
     | (o, w1, t1) =>
         started t1 = [Spawned (argument_attempt prompt timeoutMs)]
         /\ runGeminiPrompt P prompt timeoutMs w = (o, w1, t1)
     end.
Proof.
  split; [apply recognised_signature_spec|].
  unfold runGeminiPrompt. rewrite try_catch_run.
  pose proof (run_child_started (gemini_handlers timeoutMs)
                (argument_attempt prompt timeoutMs) w) as Hfirst.
  change (run_child P (gemini_handlers timeoutMs)
            (argument_attempt prompt timeoutMs))
    with (spawnGemini P [prompt] None timeoutMs) in Hfirst.
  destruct (spawnGemini P [prompt] None timeoutMs w) as [[[r|e|] w1] t1];
    simpl in Hfirst; try (split; [assumption|reflexivity]).
  split; [assumption|].
  destruct (isArgumentTooLongError e).
  - rewrite bind_run. unfold log.
    pose proof (run_child_started (gemini_handlers timeoutMs)
                  (stdin_attempt prompt timeoutMs) w1) as Hsecond.
    change (run_child P (gemini_handlers timeoutMs)
              (stdin_attempt prompt timeoutMs))
      with (spawnGemini P [] (Some prompt) timeoutMs) in Hsecond.
    destruct (spawnGemini P [] (Some prompt) timeoutMs w1) as [[o2 w2] t2].
    simpl in *. rewrite !started_app, Hfirst. simpl. rewrite Hsecond. auto.
  - unfold throw, preceded_by. now rewrite app_nil_r.
Qed.

(** C5. When the listing of changed files leaves an empty change set, the
    tool returns the canonical empty result, and the run has no effect
    besides the listing that collected the change set: no analyzer, no
    diff, no reviewer is started and nothing is printed. *)
Theorem no_changes_short_circuit (w w1 : World P) (listing : GeminiResult)
    (t1 : list effect) :
  execAsync P list_command None w = (Returned listing, w1, t1) ->
  changed_files_of (stdout listing) = [] ->
  review_local_changes P w
  = (Returned [mkItem "text" (stringify 2 empty_result)], w1, t1)
  /\ t1 = [Started (Execed list_command None)]
  /\ stringify 2 empty_result = empty_result_text.
Proof.
  intros Hlist Hnone.
  assert (Ht : t1 = [Started (Execed list_command None)]).
  { unfold execAsync in Hlist.
    destruct (os_exec P list_command None w) as [reply w0].
    now injection Hlist as _ _ <-. }
  split; [|split; [exact Ht|reflexivity]].
  unfold review_local_changes, runHybridAnalysis.
  rewrite try_catch_run, bind_run, try_catch_run, bind_run, Hlist, Hnone.
  subst t1. reflexivity.
Qed.

Lemma payload_is_not_the_sentinel (diff : string) (r : json) :
  stringify 2 (JObj [("diff", JStr diff); ("linterReport", r)]) <> "{}".
Proof. unfold stringify, serialize, layout. simpl. discriminate. Qed.

Lemma reviewer_is_started_first (prompt : string) (timeoutMs : Z)
    (w : World P) :
  exists rest,
    started (snd (runGeminiPrompt P prompt timeoutMs w))
    = Spawned (argument_attempt prompt timeoutMs) :: rest.
Proof.
  unfold runGeminiPrompt. rewrite try_catch_run.
  pose proof (run_child_started (gemini_handlers timeoutMs)
                (argument_attempt prompt timeoutMs) w) as Hfirst.
  change (run_child P (gemini_handlers timeoutMs)
            (argument_attempt prompt timeoutMs))
    with (spawnGemini P [prompt] None timeoutMs) in Hfirst.
  destruct (spawnGemini P [prompt] None timeoutMs w) as [[[r|e|] w1] t1];
    cbn [snd] in *; try (exists []; assumption).
  destruct (isArgumentTooLongError e).
  - rewrite bind_run. unfold log.
    destruct (spawnGemini P [] (Some prompt) timeoutMs w1) as [[o2 w2] t2].
    cbn [preceded_by snd]. rewrite started_app, Hfirst. now eexists.
  - unfold throw. cbn [preceded_by snd]. rewrite app_nil_r.
    exists []. assumption.
Qed.

(** C10. After a successful listing, [runHybridAnalysis] returns the text
    ["{}"] exactly when the change set is empty: the serialized payload of
    a non-empty change set is never that text, and a run that throws or
    never comes back had a non-empty change set. So the test of the tool
    handler takes a payload for what it is: with a change set that is not
    empty, whatever the analysis returns goes into the prompt, the next
    process started is the reviewer with that prompt, and the tool's answer
    is the reviewer's; a failure of the analysis is wrapped and thrown. *)
Theorem sentinel_only_for_empty_change_set (w w1 : World P)
    (listing : GeminiResult) (t1 : list effect) (diff : string) (r : json) :
  execAsync P list_command None w = (Returned listing, w1, t1) ->
  stringify 2 (JObj [("diff", JStr diff); ("linterReport", r)]) <> "{}"
  /\ match fst (fst (runHybridAnalysis P w)) with
     | Returned s => s = "{}" <-> changed_files_of (stdout listing) = []
     | Thrown _ | Pending => changed_files_of (stdout listing) <> []
     end
  /\ (changed_files_of (stdout listing) <> [] ->
      match runHybridAnalysis P w with
      | (Returned s, w2, t2) =>
          review_local_changes P w
          = match runGeminiPrompt P (prompt_of P s) 120000 w2 with
            | (Returned answer, w3, t3) =>
                (Returned [mkItem "text" (stdout answer)], w3, (t2 ++ t3)%list)
            | (Thrown e, w3, t3) =>
                (Thrown (ErrorObj None
                   ("An unexpected error occurred: " ++ error_text e)),
                 w3,
                 (t2 ++ t3 ++ [Printed ("Execution failed: " ++ error_text e)])%list)
            | (Pending, w3, t3) => (Pending, w3, (t2 ++ t3)%list)
            end
          /\ exists rest,
               started (snd (review_local_changes P w))
               = (started t2
                  ++ Spawned (argument_attempt (prompt_of P s) 120000) :: rest)%list
      | (Thrown e, w2, t2) =>
          review_local_changes P w
          = (Thrown (ErrorObj None
               ("An unexpected error occurred: " ++ error_text e)),
             w2, (t2 ++ [Printed ("Execution failed: " ++ error_text e)])%list)
      | (Pending, w2, t2) => review_local_changes P w = (Pending, w2, t2)
      end).
Proof.
  intros Hlist.
  assert (Hsentinel :
    match fst (fst (runHybridAnalysis P w)) with
    | Returned s => s = "{}" <-> changed_files_of (stdout listing) = []
    | Thrown _ | Pending => changed_files_of (stdout listing) <> []
    end).
  { unfold runHybridAnalysis.
    rewrite try_catch_run, bind_run, Hlist.
    destruct (changed_files_of (stdout listing)) as [|file files] eqn:Hc.
    - simpl. tauto.
    - cbn [List.length Nat.eqb]. rewrite bind_run.
      destruct (runProjectLinter P (file :: files) w1) as [[[rep|e|] w2] t2];
        try (simpl; discriminate).
      rewrite bind_run. unfold execAsync.
      destruct (os_exec P "git diff HEAD" None w2) as [[out err|e] w3];
        simpl; try discriminate.
      split; [|discriminate].
      intros H. now apply payload_is_not_the_sentinel in H. }
  split; [apply payload_is_not_the_sentinel|]. split; [exact Hsentinel|].
  intros Hsome. unfold review_local_changes.
  rewrite try_catch_run, bind_run.
  destruct (runHybridAnalysis P w) as [[[s|e|] w2] t2]; cbn [fst] in Hsentinel.
  - assert (Hs : String.eqb s "{}" = false).
    { apply String.eqb_neq. intros E. now apply Hsentinel in E. }
    rewrite Hs, bind_run.
    destruct (reviewer_is_started_first (prompt_of P s) 120000 w2)
      as [rest Hrest].
    destruct (runGeminiPrompt P (prompt_of P s) 120000 w2)
      as [[[answer|e|] w3] t3]; cbn [snd] in Hrest;
      unfold ret, throw, log, bind; cbn [preceded_by snd];
      rewrite ?app_nil_r, ?started_app, ?Hrest, <- ?app_assoc;
      (split; [reflexivity|]); cbn [started flat_map app];
      rewrite ?app_nil_r; eauto.
  - unfold log, throw, bind. cbn [preceded_by]. reflexivity.
  - reflexivity.
Qed.

End Orchestrator.


(** ** What the selector starts *)

Section Shells.

Variable P : Platform.
Variable Q : invocation -> Prop.

Lemma starts_only_ret {A} (a : A) : starts_only P Q (ret P a).
Proof. intros w. constructor. Qed.

Lemma starts_only_throw {A} (e : js_error) : starts_only P Q (@throw P A e).
Proof. intros w. constructor. Qed.

Lemma starts_only_log (line : string) : starts_only P Q (log P line).
Proof. intros w. constructor. Qed.

Lemma starts_only_bind {A B} (m : M P A) (f : A -> M P B) :
  starts_only P Q m -> (forall a, starts_only P Q (f a)) ->
  starts_only P Q (bind P m f).
Proof.
  intros Hm Hf w. specialize (Hm w). unfold bind.
  destruct (m w) as [[[a|e|] w1] t1]; try assumption.
  specialize (Hf a w1). destruct (f a w1) as [[o w2] t2].
  simpl in *. rewrite started_app. apply Forall_app. auto.
Qed.

Lemma starts_only_try {A} (m : M P A) (h : js_error -> M P A) :
  starts_only P Q m -> (forall e, starts_only P Q (h e)) ->
  starts_only P Q (try_catch P m h).
Proof.
  intros Hm Hh w. specialize (Hm w). unfold try_catch.
  destruct (m w) as [[[a|e|] w1] t1]; try assumption.
  specialize (Hh e w1). destruct (h e w1) as [[o w2] t2].
  simpl in *. rewrite started_app. apply Forall_app. auto.
Qed.

Lemma starts_only_if {A} (b : bool) (m1 m2 : M P A) :
  starts_only P Q m1 -> starts_only P Q m2 ->
  starts_only P Q (if b then m1 else m2).
Proof. now destruct b. Qed.

Lemma starts_only_exec (command_line : string) (timeout : option Z) :
  Q (Execed command_line timeout) ->
  starts_only P Q (execAsync P command_line timeout).
Proof.
  intros H w. unfold execAsync.
  destruct (os_exec P command_line timeout w) as [reply w1].
  simpl. now repeat constructor.
Qed.

Lemma starts_only_child (handlers : runner -> child_event -> runner)
    (req : spawn_request) :
  Q (Spawned req) -> starts_only P Q (run_child P handlers req).
Proof.
  intros H w. rewrite run_child_started. now repeat constructor.
Qed.

End Shells.

Section Analyzers.

Variable P : Platform.

Lemma exec_through_shell (command_line : string) (timeout : option Z) :
  through_shell (Execed command_line timeout).
Proof. now exists command_line. Qed.

Lemma probes_through_shell (files : list string) :
  starts_only P through_shell (checkFileExists P files).
Proof.
  induction files as [|file rest IH]; cbn [checkFileExists].
  - apply starts_only_ret.
  - apply starts_only_try; [|intros _; exact IH].
    apply starts_only_bind; [|intros _; apply starts_only_ret].
    apply starts_only_exec, exec_through_shell.
Qed.

Lemma jshint_through_shell (files : list string) :
  forall results, starts_only P through_shell (jshint_files P files results).
Proof.
  induction files as [|file rest IH]; intros results; cbn [jshint_files].
  - apply starts_only_ret.
  - apply starts_only_bind; [|intros r; apply IH].
    apply starts_only_exec, exec_through_shell.
Qed.

Lemma analyzers_start_through_a_shell (files : list string) (w : World P) :
  Forall through_shell (started (snd (runProjectLinter P files w))).
Proof.
  revert w. change (starts_only P through_shell (runProjectLinter P files)).
  assert (Hlast : forall (line : string) (r : report),
            starts_only P through_shell
              (bind P (log P line) (fun _ => ret P r))).
  { intros line r. apply starts_only_bind; [apply starts_only_log|].
    intros _. apply starts_only_ret. }
  assert (Hnone : forall (line : string),
            starts_only P through_shell
              (bind P (log P line) (fun _ => ret P (@None report)))).
  { intros line. apply starts_only_bind; [apply starts_only_log|].
    intros _. apply starts_only_ret. }
  unfold runProjectLinter. apply starts_only_try; [|intros e; apply Hlast].
  apply starts_only_bind.
  { unfold eslint_branch.
    apply starts_only_bind; [apply probes_through_shell|]. intros has.
    apply starts_only_if; [|apply starts_only_ret].
    apply starts_only_try; [|intros e; apply Hnone].
    apply starts_only_bind.
    - apply starts_only_child.
      now exists (String.concat " " ("npx" :: (["eslint"; "--format"; "json"] ++ files)%list)).
    - intros r. apply starts_only_if; [|apply starts_only_ret].
      destruct (JSON_parse P (stdout r));
        [apply starts_only_ret|apply starts_only_throw]. }
  intros [r|]; [apply starts_only_ret|].
  apply starts_only_bind.
  { unfold jshint_branch.
    apply starts_only_bind.
    - apply starts_only_try; [|intros _; apply starts_only_ret].
      apply starts_only_bind; [|intros _; apply starts_only_ret].
      apply starts_only_exec, exec_through_shell.
    - intros has. apply starts_only_if; [|apply starts_only_ret].
      apply starts_only_try; [|intros e; apply Hnone].
      apply starts_only_bind; [apply jshint_through_shell|].
      intros results. apply starts_only_ret. }
  intros [r|]; [apply starts_only_ret|].
  apply starts_only_bind.
  { unfold tsc_branch.
    apply starts_only_bind; [apply probes_through_shell|]. intros has.
    apply starts_only_if; [|apply starts_only_ret].
    apply starts_only_try; [|intros e; apply Hnone].
    apply starts_only_bind; [apply starts_only_exec, exec_through_shell|].
    intros r. apply starts_only_if; apply starts_only_ret. }
  intros [r|]; [apply starts_only_ret|apply Hlast].
Qed.

End Analyzers.


(** ** The statements on the scripted platform *)

Lemma transport_retries_on_recognised_signature_witness :
  started (snd (runGeminiPrompt scripted "review" 120000 overflow_world))
  = [Spawned (mkSpawn "gemini" ["review"] false "" 120000);
     Spawned (mkSpawn "gemini" [] false ("review" ++ newline) 120000)]
  /\ fst (fst (runGeminiPrompt scripted "review" 120000 overflow_world))
     = Returned (mkResult "{}" "").
Proof.
  split; [|reflexivity].
  pose proof (transport_retries_on_recognised_signature scripted "review"
                120000 overflow_world (Primitive "")) as [_ H].
  vm_compute in H. destruct H as [_ [_ H]].
  vm_compute. exact H.
Defined.

(** C4 as stated fails: an error with the phrase in its message and a code
    that is not E2BIG is thrown as it is, after a single start. *)
Lemma code_outranks_message :
  stated_signature miscoded_error = true
  /\ runGeminiPrompt scripted "review" 120000 miscoded_world
     = (Thrown miscoded_error,
        [inr (Child [StdoutData "{}"; CloseEvent (Some 0%Z)])],
        [Started (Spawned (argument_attempt "review" 120000))]).
Proof. split; reflexivity. Qed.

Lemma no_changes_short_circuit_witness :
  (execAsync scripted list_command None quiet_world
   = (Returned (mkResult (String.concat newline ["README.md"; "notes.txt"; ""]) ""),
      [], [Started (Execed list_command None)])
   /\ changed_files_of (String.concat newline ["README.md"; "notes.txt"; ""]) = [])
  /\ review_local_changes scripted quiet_world
     = (Returned [mkItem "text" (stringify 2 empty_result)], [],
        [Started (Execed list_command None)]).
Proof.
  split; [split; reflexivity|].
  apply (no_changes_short_circuit scripted quiet_world []
           (mkResult (String.concat newline ["README.md"; "notes.txt"; ""]) "")
           [Started (Execed list_command None)]);
    reflexivity.
Defined.

Lemma sentinel_only_for_empty_change_set_witness :
  execAsync scripted list_command None review_world
  = (Returned (mkResult "a.ts" ""), tl review_world,
     [Started (Execed list_command None)])
  /\ changed_files_of "a.ts" <> []
  /\ fst (fst (review_local_changes scripted review_world))
     = Returned [mkItem "text" "reviewed"]
  /\ exists s rest,
       fst (fst (runHybridAnalysis scripted review_world)) = Returned s
       /\ s <> "{}"
       /\ started (snd (review_local_changes scripted review_world))
          = (started (snd (runHybridAnalysis scripted review_world))
             ++ Spawned (argument_attempt (prompt_of scripted s) 120000) :: rest)%list.
Proof.
  split; [reflexivity|]. split; [discriminate|].
  pose proof (sentinel_only_for_empty_change_set scripted review_world
                (tl review_world) (mkResult "a.ts" "")
                [Started (Execed list_command None)] "" JNull eq_refl)
    as (_ & Hs & H).
  specialize (H ltac:(discriminate)).
  destruct (runHybridAnalysis scripted review_world) as [[[s|e|] w2] t2] eqn:E;
    try discriminate E.
  destruct H as [H [rest Hrest]].
  split.
  - rewrite H. vm_compute in E. injection E as <- <- <-. reflexivity.
  - exists s, rest. split; [reflexivity|]. split; [|exact Hrest].
    cbn [fst stdout] in Hs. intros Es. apply Hs in Es. discriminate Es.
Defined.



(** C7. Every process the analyzer selector starts is handed to a shell
    as one command line, whatever the changed files are: the ESLint runner
    spawns with [shell: true], which joins the arguments into one line, and
    the JSHint branch pastes each path into the command line it executes.
    With an ESLint configuration in place and JSHint installed, a changed
    file whose name is a command substitution reaches [/bin/sh -c] inside
    the command line of both analyzers, and is a discrete argument of
    neither. *)
Theorem changed_paths_reach_a_shell (P : Platform) (files : list string)
    (w : World P) :
  Forall through_shell (started (snd (runProjectLinter P files w)))
  /\ changed_files_of hostile_path = [hostile_path]
  /\ map process_argv
       (started (snd (runProjectLinter scripted [hostile_path] hostile_world)))
     = [ ["/bin/sh"; "-c"; "test -f eslint.config.js"];
         ["/bin/sh"; "-c"; "npx eslint --format json $(touch pwned).js"];
         ["/bin/sh"; "-c"; "which jshint"];
         ["/bin/sh"; "-c"; "jshint $(touch pwned).js"] ]
  /\ Forall (fun argv => ~ In hostile_path argv)
       (map process_argv
          (started (snd (runProjectLinter scripted [hostile_path] hostile_world)))).
Proof.
  split; [apply analyzers_start_through_a_shell|].
  split; [reflexivity|]. split; [reflexivity|].
  vm_compute. repeat constructor; intros H;
    repeat (destruct H as [H|H]; [discriminate|]); exact H.
Qed.


(** ** More on the parsers *)

(** X1. Every finding of the TypeScript parser is an error or a warning of
    rule and source typescript; a line yields one finding when it has the
    form ["<file>(<line>,<col>): <error|warning> <message>"] and nothing
    otherwise. *)
Theorem tsc_parser_contract (output ln : string) :
  Forall (fun f => (severity f = "error" \/ severity f = "warning")
                   /\ rule f = "typescript" /\ source f = "typescript")
    (parseTypeScriptErrors output)
  /\ ((tsc_pattern ln /\ List.length (tsc_issue ln) = 1)
      \/ (~ tsc_pattern ln /\ tsc_issue ln = [])).
Proof.
  split.
  - apply Forall_flat_map. intros l0 _.
    destruct (tsc_issue_cases l0)
      as [[-> _] | (f0 & l & c & sev & msg & L & ->)]; constructor; [|constructor].
    destruct L as (w1 & w2 & _ & _ & _ & _ & _ & Hsev & _). simpl. auto.
  - destruct (tsc_issue_cases ln)
      as [[-> E] | (f0 & l & c & sev & msg & L & ->)].
    + right. split; [|reflexivity].
      intros (f0 & l & c & sev & msg & L).
      now apply tsc_re_complete in L.
    + left. split; [|reflexivity]. now exists f0, l, c, sev, msg.
Qed.

Lemma split_not_nil (sep : ascii) (s : string) : split sep s <> [].
Proof.
  induction s as [|c s IH]; simpl; [discriminate|].
  destruct (Ascii.eqb c sep); [discriminate|].
  destruct (split sep s); [contradiction|discriminate].
Qed.

Lemma split_append (sep : ascii) (a b : string) :
  split sep (a ++ String sep b) = (split sep a ++ split sep b)%list.
Proof.
  induction a as [|c a IH]; simpl.
  - now rewrite Ascii.eqb_refl.
  - destruct (Ascii.eqb c sep); [now rewrite IH|].
    rewrite IH. pose proof (split_not_nil sep a) as Hne.
    destruct (split sep a); [contradiction|reflexivity].
Qed.

(** X2. Both parsers work line by line: the findings of two outputs
    joined by a newline are the findings of the first followed by those of
    the second, and an empty output has none. *)
Theorem parsers_work_line_by_line (a b filePath : string) :
  parseJshintOutput (a ++ newline ++ b) filePath
  = (parseJshintOutput a filePath ++ parseJshintOutput b filePath)%list
  /\ parseTypeScriptErrors (a ++ newline ++ b)
     = (parseTypeScriptErrors a ++ parseTypeScriptErrors b)%list
  /\ parseJshintOutput "" filePath = []
  /\ parseTypeScriptErrors "" = [].
Proof.
  unfold parseJshintOutput, parseTypeScriptErrors, newline.
  cbn [append]. rewrite !split_append, !flat_map_app.
  repeat split; reflexivity.
Qed.

(** ** Signals and the timer *)

Section Signals.

Variable h : runner -> child_event -> runner.

Hypothesis settled_keeps :
  forall st ev, settled st = true ->
    settled (h st ev) = true /\ signals (h st ev) = signals st
    /\ timer_cleared (h st ev) = timer_cleared st.

Hypothesis data_keeps :
  forall st ev, is_terminal ev = false ->
    settled (h st ev) = settled st /\ signals (h st ev) = signals st
    /\ timer_cleared (h st ev) = timer_cleared st.

Lemma signals_frozen (events : list child_event) :
  forall st, settled st = true ->
    signals (deliver h events st) = signals st
    /\ timer_cleared (deliver h events st) = timer_cleared st.
Proof.
  induction events as [|ev events IH]; simpl; intros st Hs; [auto|].
  destruct (settled_keeps st ev Hs) as (Hs' & Hsig & Hclr).
  destruct (IH _ Hs') as [? ?]. split; congruence.
Qed.

Lemma signals_pending (events : list child_event) :
  forall st, existsb is_terminal events = false ->
    settled (deliver h events st) = settled st
    /\ signals (deliver h events st) = signals st
    /\ timer_cleared (deliver h events st) = timer_cleared st.
Proof.
  induction events as [|ev events IH]; simpl; intros st Hev; [auto|].
  apply orb_false_elim in Hev as [Hev Hrest].
  destruct (data_keeps st ev Hev) as (? & ? & ?).
  destruct (IH (h st ev) Hrest) as (? & ? & ?). repeat split; congruence.
Qed.

End Signals.

Lemma gemini_signals (timeoutMs : Z) (chunks later : list child_event)
    (ev : child_event) :
  existsb is_terminal chunks = false -> is_terminal ev = true ->
  let final :=
    deliver (gemini_handlers timeoutMs) (chunks ++ ev :: later) fresh in
  signals final = match ev with TimerFired => ["SIGTERM"] | _ => [] end
  /\ timer_cleared final = match ev with TimerFired => false | _ => true end.
Proof.
  intros Hchunks Hev final. subst final.
  assert (K1 : forall st e, settled st = true ->
            settled (gemini_handlers timeoutMs st e) = true
            /\ signals (gemini_handlers timeoutMs st e) = signals st
            /\ timer_cleared (gemini_handlers timeoutMs st e) = timer_cleared st).
  { intros st e Hs. destruct e; cbn [gemini_handlers]; rewrite ?Hs; auto. }
  assert (K2 : forall st e, is_terminal e = false ->
            settled (gemini_handlers timeoutMs st e) = settled st
            /\ signals (gemini_handlers timeoutMs st e) = signals st
            /\ timer_cleared (gemini_handlers timeoutMs st e) = timer_cleared st).
  { intros st e He. destruct e; try discriminate; auto. }
  destruct (signals_pending _ K2 chunks fresh Hchunks) as (Hs & Hsig & Hclr).
  unfold deliver at 1 2. rewrite fold_left_app. cbn [fold_left].
  fold (deliver (gemini_handlers timeoutMs) chunks fresh).
  set (before := deliver (gemini_handlers timeoutMs) chunks fresh) in *.
  fold (deliver (gemini_handlers timeoutMs) later
          (gemini_handlers timeoutMs before ev)).
  cbn [fresh settled signals timer_cleared] in Hs, Hsig, Hclr.
  assert (Hset : settled (gemini_handlers timeoutMs before ev) = true).
  { destruct ev; try discriminate; cbn [gemini_handlers]; rewrite Hs;
      try destruct (negb (is_zero code)); reflexivity. }
  destruct (signals_frozen _ K1 later _ Hset) as [-> ->].
  destruct ev; try discriminate; cbn [gemini_handlers]; rewrite Hs;
    try destruct (negb (is_zero code)); cbn [signals timer_cleared];
    rewrite ?Hsig, ?Hclr; auto.
Qed.

Lemma eslint_signals (timeoutMs : Z) (chunks later : list child_event)
    (ev : child_event) :
  existsb is_terminal chunks = false -> is_terminal ev = true ->
  let final :=
    deliver (eslint_handlers timeoutMs) (chunks ++ ev :: later) fresh in
  signals final = match ev with TimerFired => ["SIGTERM"] | _ => [] end
  /\ timer_cleared final = match ev with TimerFired => false | _ => true end.
Proof.
  intros Hchunks Hev final. subst final.
  assert (K1 : forall st e, settled st = true ->
            settled (eslint_handlers timeoutMs st e) = true
            /\ signals (eslint_handlers timeoutMs st e) = signals st
            /\ timer_cleared (eslint_handlers timeoutMs st e) = timer_cleared st).
  { intros st e Hs. destruct e; cbn [eslint_handlers]; rewrite ?Hs; auto. }
  assert (K2 : forall st e, is_terminal e = false ->
            settled (eslint_handlers timeoutMs st e) = settled st
            /\ signals (eslint_handlers timeoutMs st e) = signals st
            /\ timer_cleared (eslint_handlers timeoutMs st e) = timer_cleared st).
  { intros st e He. destruct e; try discriminate; auto. }
  destruct (signals_pending _ K2 chunks fresh Hchunks) as (Hs & Hsig & Hclr).
  unfold deliver at 1 2. rewrite fold_left_app. cbn [fold_left].
  fold (deliver (eslint_handlers timeoutMs) chunks fresh).
  set (before := deliver (eslint_handlers timeoutMs) chunks fresh) in *.
  fold (deliver (eslint_handlers timeoutMs) later
          (eslint_handlers timeoutMs before ev)).
  cbn [fresh settled signals timer_cleared] in Hs, Hsig, Hclr.
  assert (Hset : settled (eslint_handlers timeoutMs before ev) = true).
  { destruct ev; try discriminate; cbn [eslint_handlers]; rewrite Hs;
      reflexivity. }
  destruct (signals_frozen _ K1 later _ Hset) as [-> ->].
  destruct ev; try discriminate; cbn [eslint_handlers]; rewrite Hs;
    cbn [signals timer_cleared]; rewrite ?Hsig, ?Hclr; auto.
Qed.

(** X3. A child is sent a signal only when the timer is what settles the
    run, and then SIGTERM once; the timer is cleared exactly when an
    ['error'] or a ['close'] settles the run. Whatever comes after the
    settling event sends no signal. This holds for both runners. *)
Theorem child_is_signalled_only_by_the_timer (timeoutMs : Z)
    (chunks later : list child_event) (ev : child_event) :
  existsb is_terminal chunks = false -> is_terminal ev = true ->
  (signals (deliver (gemini_handlers timeoutMs) (chunks ++ ev :: later) fresh)
   = match ev with TimerFired => ["SIGTERM"] | _ => [] end
   /\ timer_cleared
        (deliver (gemini_handlers timeoutMs) (chunks ++ ev :: later) fresh)
      = match ev with TimerFired => false | _ => true end)
  /\ (signals (deliver (eslint_handlers timeoutMs) (chunks ++ ev :: later) fresh)
      = match ev with TimerFired => ["SIGTERM"] | _ => [] end
      /\ timer_cleared
           (deliver (eslint_handlers timeoutMs) (chunks ++ ev :: later) fresh)
         = match ev with TimerFired => false | _ => true end).
Proof.
  intros Hchunks Hev. split.
  - apply gemini_signals; assumption.
  - apply eslint_signals; assumption.
Qed.

Lemma child_is_signalled_only_by_the_timer_witness :
  signals (deliver (gemini_handlers 120000)
             ([StdoutData "{"] ++ TimerFired
                :: [CloseEvent None; TimerFired; ErrorEvent (Primitive "late")])
             fresh)
  = ["SIGTERM"]
  /\ signals (deliver (eslint_handlers 30000)
                ([StdoutData "[]"] ++ CloseEvent (Some 1%Z) :: [TimerFired])
                fresh)
     = [].
Proof.
  split.
  - apply (child_is_signalled_only_by_the_timer 120000 [StdoutData "{"]
             [CloseEvent None; TimerFired; ErrorEvent (Primitive "late")]
             TimerFired); reflexivity.
  - apply (child_is_signalled_only_by_the_timer 30000 [StdoutData "[]"]
             [TimerFired] (CloseEvent (Some 1%Z))); reflexivity.
Defined.


(** ** More on the selector, the transport and the orchestrator *)

Lemma endsWith_refl (s : string) : endsWith s s = true.
Proof. destruct s; cbn [endsWith]; now rewrite String.eqb_refl. Qed.

Lemma endsWith_append (suffix s : string) :
  endsWith suffix (s ++ suffix) = true.
Proof.
  induction s as [|a s IH]; [apply endsWith_refl|].
  cbn [append endsWith]. rewrite IH. apply orb_true_r.
Qed.

Section More.

Variable P : Platform.

(** X4. The JSHint step runs one command per changed file, in the order
    of the change set, each with a limit of ten seconds, and stops at the
    first command that fails, with its error. When all succeed the result
    is what was there before followed by the findings parsed from each
    command's standard error, file by file. *)
Theorem jshint_runs_one_command_per_file (files : list string) :
  forall (results : list Finding) (w : World P),
    match first_failure (exec_replies P (map jshint_command files) w) with
    | None =>
        fst (fst (jshint_files P files results w))
        = Returned
            (results
             ++ flat_map
                  (fun fr => parseJshintOutput (stderr_text (snd fr)) (fst fr))
                  (combine files
                     (exec_replies P (map jshint_command files) w)))%list
        /\ started (snd (jshint_files P files results w))
           = map as_invocation (map jshint_command files)
    | Some (k, e) =>
        fst (fst (jshint_files P files results w)) = Thrown e
        /\ started (snd (jshint_files P files results w))
           = map as_invocation (firstn (S k) (map jshint_command files))
    end.
Proof.
  induction files as [|file rest IH]; intros results w.
  - cbn. now rewrite app_nil_r.
  - cbn [jshint_files map exec_replies jshint_command].
    rewrite bind_run. unfold execAsync.
    destruct (os_exec P ("jshint " ++ file) (Some 10000%Z) w)
      as [[out err|e] w1]; cbn [first_failure].
    + cbn [stderr].
      assert (Hacc : (if truthy err
                      then (results ++ parseJshintOutput err file)%list
                      else results)
                     = (results ++ parseJshintOutput err file)%list).
      { destruct (truthy err) eqn:T; [reflexivity|].
        unfold truthy in T. apply negb_false_iff, String.eqb_eq in T.
        subst err. now rewrite app_nil_r. }
      rewrite Hacc.
      specialize (IH (results ++ parseJshintOutput err file)%list w1).
      fold (jshint_command file).
      destruct (jshint_files P rest (results ++ parseJshintOutput err file) w1)
        as [[o w2] t2].
      cbn [preceded_by fst snd] in *.
      change (started ([Started (Execed ("jshint " ++ file) (Some 10000%Z))] ++ t2))
        with (Execed ("jshint " ++ file) (Some 10000%Z) :: started t2).
      destruct (first_failure (exec_replies P (map jshint_command rest) w1))
        as [[k e]|]; destruct IH as [-> ->].
      * split; reflexivity.
      * split; [|reflexivity].
        cbn [combine flat_map fst snd stderr_text]. now rewrite app_assoc.
    + split; reflexivity.
Qed.

Lemma checkFileExists_replies (files : list string) :
  forall w : World P,
    match first_success (exec_replies P (map probe_command files) w) with
    | Some k =>
        fst (fst (checkFileExists P files w)) = Returned true
        /\ started (snd (checkFileExists P files w))
           = map as_invocation (firstn (S k) (map probe_command files))
    | None =>
        fst (fst (checkFileExists P files w)) = Returned false
        /\ started (snd (checkFileExists P files w))
           = map as_invocation (map probe_command files)
    end.
Proof.
  induction files as [|file rest IH]; intros w.
  - cbn. auto.
  - cbn [checkFileExists map exec_replies probe_command].
    rewrite try_catch_run, bind_run. unfold execAsync.
    destruct (os_exec P ("test -f " ++ file) None w) as [[out err|e] w1];
      cbn [first_success].
    + split; reflexivity.
    + specialize (IH w1). fold (probe_command file).
      destruct (checkFileExists P rest w1) as [[o w2] t2].
      cbn [preceded_by fst snd] in *.
      change (started ([Started (Execed ("test -f " ++ file) None)] ++ t2))
        with (Execed ("test -f " ++ file) None :: started t2).
      destruct (first_success (exec_replies P (map probe_command rest) w1))
        as [k|]; destruct IH as [-> ->]; split; reflexivity.
Qed.

(** X5. The configuration probe runs [test -f] on the names in their
    order and stops at the first one that succeeds: it answers yes exactly
    when there is one, and has then started the commands up to that one; it
    answers no after all of them. The command probe runs one [which] and
    answers yes exactly when it succeeds. Neither ever throws. *)
Theorem probes_always_answer (files : list string) (command : string)
    (w : World P) :
  match first_success (exec_replies P (map probe_command files) w) with
  | Some k =>
      fst (fst (checkFileExists P files w)) = Returned true
      /\ started (snd (checkFileExists P files w))
         = map as_invocation (firstn (S k) (map probe_command files))
  | None =>
      fst (fst (checkFileExists P files w)) = Returned false
      /\ started (snd (checkFileExists P files w))
         = map as_invocation (map probe_command files)
  end
  /\ fst (fst (checkCommandExists P command w))
     = Returned (match fst (os_exec P ("which " ++ command) None w) with
                 | ExecOk _ _ => true
                 | ExecFails _ => false
                 end)
  /\ started (snd (checkCommandExists P command w))
     = [Execed ("which " ++ command) None].
Proof.
  split; [apply checkFileExists_replies|].
  unfold checkCommandExists. rewrite try_catch_run, bind_run.
  unfold execAsync.
  destruct (os_exec P ("which " ++ command) None w) as [[out err|e] w1];
    split; reflexivity.
Qed.

(** X6. The reviewer is started once or twice and never through a shell:
    the prompt is one element of the argument vector of the first start,
    whatever characters it has, and the standard input of the second, where
    it ends with one newline: its own when it has one, an added one when it
    has none. *)
Theorem reviewer_is_never_started_through_a_shell (prompt : string)
    (timeoutMs : Z) (w : World P) :
  (started (snd (runGeminiPrompt P prompt timeoutMs w))
   = [Spawned (argument_attempt prompt timeoutMs)]
   \/ started (snd (runGeminiPrompt P prompt timeoutMs w))
      = [Spawned (argument_attempt prompt timeoutMs);
         Spawned (stdin_attempt prompt timeoutMs)])
  /\ Forall (fun i => shell_command i = None)
       (started (snd (runGeminiPrompt P prompt timeoutMs w)))
  /\ process_argv (Spawned (argument_attempt prompt timeoutMs))
     = ["gemini"; prompt]
  /\ process_argv (Spawned (stdin_attempt prompt timeoutMs)) = ["gemini"]
  /\ endsWith newline (input (stdin_attempt prompt timeoutMs)) = true
  /\ (input (stdin_attempt prompt timeoutMs) = prompt
      \/ (endsWith newline prompt = false
          /\ input (stdin_attempt prompt timeoutMs) = prompt ++ newline)).
Proof.
  assert (Hstarts :
    started (snd (runGeminiPrompt P prompt timeoutMs w))
    = [Spawned (argument_attempt prompt timeoutMs)]
    \/ started (snd (runGeminiPrompt P prompt timeoutMs w))
       = [Spawned (argument_attempt prompt timeoutMs);
          Spawned (stdin_attempt prompt timeoutMs)]).
  { unfold runGeminiPrompt. rewrite try_catch_run.
    pose proof (run_child_started P (gemini_handlers timeoutMs)
                  (argument_attempt prompt timeoutMs) w) as Hfirst.
    change (run_child P (gemini_handlers timeoutMs)
              (argument_attempt prompt timeoutMs))
      with (spawnGemini P [prompt] None timeoutMs) in Hfirst.
    destruct (spawnGemini P [prompt] None timeoutMs w) as [[[r|e|] w1] t1];
      cbn [snd] in *; auto.
    destruct (isArgumentTooLongError e).
    - right. rewrite bind_run. unfold log.
      pose proof (run_child_started P (gemini_handlers timeoutMs)
                    (stdin_attempt prompt timeoutMs) w1) as Hsecond.
      change (run_child P (gemini_handlers timeoutMs)
                (stdin_attempt prompt timeoutMs))
        with (spawnGemini P [] (Some prompt) timeoutMs) in Hsecond.
      destruct (spawnGemini P [] (Some prompt) timeoutMs w1) as [[o2 w2] t2].
      cbn [preceded_by snd] in *. rewrite !started_app, Hfirst.
      cbn [started flat_map app]. now rewrite Hsecond.
    - left. unfold throw. cbn [preceded_by snd]. now rewrite app_nil_r. }
  split; [exact Hstarts|]. split.
  { destruct Hstarts as [-> | ->]; repeat constructor. }
  split; [reflexivity|]. split; [reflexivity|].
  unfold stdin_attempt. cbn [input].
  destruct (endsWith newline prompt) eqn:E.
  - split; [assumption|now left].
  - split; [apply endsWith_append|right; auto].
Qed.

(** X7. The analysis fails only with what one of its two git commands
    failed with, the listing or the diff: no failure of an analyzer reaches
    the caller. What the tool throws is such an error, or one of the
    reviewer, under the fixed heading. *)
Theorem analysis_fails_only_with_git (w : World P) (e : js_error) :
  fst (fst (runHybridAnalysis P w)) = Thrown e ->
  exists command_line w0 w1,
    (command_line = list_command \/ command_line = "git diff HEAD")
    /\ os_exec P command_line None w0 = (ExecFails e, w1)
    /\ In (Execed command_line None) (started (snd (runHybridAnalysis P w)))
    /\ exists e',
         fst (fst (review_local_changes P w)) = Thrown e'
         /\ error_text e'
            = "An unexpected error occurred: " ++ error_text e.
Proof.
  unfold review_local_changes.
  rewrite (try_catch_run P (bind P (runHybridAnalysis P) _)), bind_run.
  unfold runHybridAnalysis.
  rewrite try_catch_run, bind_run. unfold execAsync at 1 3 5.
  destruct (os_exec P list_command None w) as [[out err|e0] w1] eqn:Hlist.
  - cbn [stdout]. destruct (changed_files_of out) as [|file files];
      [discriminate|].
    cbn [List.length Nat.eqb]. rewrite bind_run.
    pose proof (runProjectLinter_never_throws P (file :: files) w1) as Hlint.
    destruct (runProjectLinter P (file :: files) w1) as [[[rep|e1|] w2] t2];
      cbn [fst] in Hlint; [| now destruct (Hlint e1) | discriminate].
    rewrite bind_run. unfold execAsync.
    destruct (os_exec P "git diff HEAD" None w2) as [[dout derr|e2] w3] eqn:Hdiff;
      [discriminate|].
    cbn. intros H. injection H as <-.
    exists "git diff HEAD", w2, w3. split; [now right|]. split; [assumption|].
    split.
    + right. apply in_flat_map. exists (Started (Execed "git diff HEAD" None)).
      split; [|now left].
      apply in_or_app. left. apply in_or_app. right. now left.
    + eexists. split; reflexivity.
  - cbn. intros H. injection H as <-.
    exists list_command, w, w1. split; [now left|]. split; [assumption|].
    split; [now left|]. eexists. split; reflexivity.
Qed.


End More.

Lemma analysis_fails_only_with_git_witness :
  fst (fst (runHybridAnalysis scripted []))
  = Thrown (ErrorObj (Some (CodeNum 1)) "Command failed")
  /\ exists command_line w0 w1,
       (command_line = list_command \/ command_line = "git diff HEAD")
       /\ scripted_exec command_line None w0
          = (ExecFails (ErrorObj (Some (CodeNum 1)) "Command failed"), w1)
       /\ In (Execed command_line None)
            (started (snd (runHybridAnalysis scripted [])))
       /\ exists e',
            fst (fst (review_local_changes scripted [])) = Thrown e'
            /\ error_text e'
               = "An unexpected error occurred: Command failed".
Proof.
  split; [reflexivity|].
  apply (analysis_fails_only_with_git scripted []
           (ErrorObj (Some (CodeNum 1)) "Command failed")).
  reflexivity.
Defined.



(** ** Time limits *)

Section Limits.

Variable P : Platform.
Variable Q : invocation -> Prop.
Variable files : list string.

Hypothesis probe_ok : forall name, Q (Execed ("test -f " ++ name) None).
Hypothesis which_ok : forall name, Q (Execed ("which " ++ name) None).
Hypothesis eslint_ok : Q (Spawned (eslint_request files)).
Hypothesis jshint_ok : forall file, Q (Execed ("jshint " ++ file) (Some 10000%Z)).
Hypothesis tsc_ok : Q (Execed "npx tsc --noEmit" (Some 30000%Z)).

Lemma probes_start_only (names : list string) :
  starts_only P Q (checkFileExists P names).
Proof.
  induction names as [|name rest IH]; cbn [checkFileExists].
  - apply starts_only_ret.
  - apply starts_only_try; [|intros _; exact IH].
    apply starts_only_bind; [|intros _; apply starts_only_ret].
    apply starts_only_exec, probe_ok.
Qed.

Lemma jshint_starts_only (names : list string) :
  forall results, starts_only P Q (jshint_files P names results).
Proof.
  induction names as [|name rest IH]; intros results; cbn [jshint_files].
  - apply starts_only_ret.
  - apply starts_only_bind; [|intros r; apply IH].
    apply starts_only_exec, jshint_ok.
Qed.

Lemma selector_starts_only : starts_only P Q (runProjectLinter P files).
Proof.
  assert (Hlast : forall (line : string) (r : report),
            starts_only P Q (bind P (log P line) (fun _ => ret P r))).
  { intros line r. apply starts_only_bind; [apply starts_only_log|].
    intros _. apply starts_only_ret. }
  assert (Hnone : forall (line : string),
            starts_only P Q
              (bind P (log P line) (fun _ => ret P (@None report)))).
  { intros line. apply starts_only_bind; [apply starts_only_log|].
    intros _. apply starts_only_ret. }
  unfold runProjectLinter. apply starts_only_try; [|intros e; apply Hlast].
  apply starts_only_bind.
  { unfold eslint_branch.
    apply starts_only_bind; [apply probes_start_only|]. intros has.
    apply starts_only_if; [|apply starts_only_ret].
    apply starts_only_try; [|intros e; apply Hnone].
    apply starts_only_bind.
    - apply starts_only_child. exact eslint_ok.
    - intros r. apply starts_only_if; [|apply starts_only_ret].
      destruct (JSON_parse P (stdout r));
        [apply starts_only_ret|apply starts_only_throw]. }
  intros [r|]; [apply starts_only_ret|].
  apply starts_only_bind.
  { unfold jshint_branch.
    apply starts_only_bind.
    - apply starts_only_try; [|intros _; apply starts_only_ret].
      apply starts_only_bind; [|intros _; apply starts_only_ret].
      apply starts_only_exec, which_ok.
    - intros has. apply starts_only_if; [|apply starts_only_ret].
      apply starts_only_try; [|intros e; apply Hnone].
      apply starts_only_bind; [apply jshint_starts_only|].
      intros results. apply starts_only_ret. }
  intros [r|]; [apply starts_only_ret|].
  apply starts_only_bind.
  { unfold tsc_branch.
    apply starts_only_bind; [apply probes_start_only|]. intros has.
    apply starts_only_if; [|apply starts_only_ret].
    apply starts_only_try; [|intros e; apply Hnone].
    apply starts_only_bind; [apply starts_only_exec, tsc_ok|].
    intros r. apply starts_only_if; apply starts_only_ret. }
  intros [r|]; [apply starts_only_ret|apply Hlast].
Qed.

End Limits.

